(** * Black-Scholes Greeks: a model of [calculate_greeks] (assignment.py)

    The Python function takes an option type (a [str]) and five numbers and
    returns a dict with the keys Delta, Gamma, Theta and Vega, or raises.

    Numbers are modelled as mathematical reals ([R]): rounding, overflow and
    the special values of IEEE doubles are outside this model; module
    [Doubles] follows lines 20 and 24 on binary64 numbers, where they can
    overflow.  The partial
    operations of Python ([/], [math.log], [math.sqrt]) raise here where
    Python raises, exceptions are values of an error monad, and every call
    into [math] and [scipy.stats.norm] is recorded in a call log so that the
    order of validation and evaluation can be stated. *)

From Stdlib Require Import Reals Lra Lia List String Ascii Bool Factorial.
From Stdlib Require Floats.
Import ListNotations.

Local Open Scope R_scope.

(** ** Exceptions, the call log and the evaluation monad *)

(** The two exception classes the function can raise, with their message. *)
Inductive exn : Type :=
| ValueError (msg : string)
| ZeroDivisionError (msg : string).

(** Calls into the numeric libraries, and float divisions, with arguments. *)
Inductive call : Type :=
| CallDiv (x y : R)
| CallLog (x : R)
| CallSqrt (x : R)
| CallExp (x : R)
| CallCdf (x : R)
| CallPdf (x : R).

(** The log holds the most recent call first. *)
Definition log := list call.

Definition M (A : Type) : Type := log -> log * (exn + A).

Definition ret {A} (a : A) : M A := fun l => (l, inr a).

Definition raise {A} (e : exn) : M A := fun l => (l, inl e).

Definition bind {A B} (m : M A) (k : A -> M B) : M B :=
  fun l => match m l with
           | (l', inl e) => (l', inl e)
           | (l', inr a) => k a l'
           end.

Definition record (c : call) : M unit := fun l => (c :: l, inr tt).

Notation "x <- m ;; k" := (bind m (fun x => k))
  (at level 61, m at next level, right associativity).
Notation "m ;;; k" := (bind m (fun _ => k))
  (at level 61, right associativity).

(** Running a computation from the empty log. *)
Definition outcome {A} (m : M A) : exn + A := snd (m []).
Definition calls {A} (m : M A) : log := fst (m []).

(** ** Comparisons on numbers, as booleans *)

Definition Rle_b (x y : R) : bool := if Rle_dec x y then true else false.
Definition Rlt_b (x y : R) : bool := if Rlt_dec x y then true else false.
Definition Req_b (x y : R) : bool := if Req_dec_T x y then true else false.

(** ** Python's partial numeric operations *)

(** [x / y] on floats: ZeroDivisionError when [y] is zero. *)
Definition py_div (x y : R) : M R :=
  record (CallDiv x y) ;;;
  if Req_b y 0 then raise (ZeroDivisionError "float division by zero")
  else ret (x / y).

(** [math.log(x)]: ValueError outside the domain. *)
Definition math_log (x : R) : M R :=
  record (CallLog x) ;;;
  if Rle_b x 0 then raise (ValueError "math domain error")
  else ret (ln x).

(** [math.sqrt(x)]: ValueError for a negative argument. *)
Definition math_sqrt (x : R) : M R :=
  record (CallSqrt x) ;;;
  if Rlt_b x 0 then raise (ValueError "math domain error")
  else ret (sqrt x).

(** [math.exp(x)]. *)
Definition math_exp (x : R) : M R :=
  record (CallExp x) ;;; ret (exp x).

(** ** [str.lower]

    The option type is a string of 8-bit characters and [lower] maps the
    letters A-Z to a-z.  Python lower-cases other letters of Unicode too; none
    of them is mapped to a letter of "call" or "put", so the comparisons of
    lines 27, 30 and 42 are not affected. *)

Definition is_upper (c : ascii) : bool :=
  (65 <=? nat_of_ascii c)%nat && (nat_of_ascii c <=? 90)%nat.

Definition lower_char (c : ascii) : ascii :=
  if is_upper c then ascii_of_nat (nat_of_ascii c + 32) else c.

Fixpoint lower (s : string) : string :=
  match s with
  | EmptyString => EmptyString
  | String c s' => String (lower_char c) (lower s')
  end.

(** ** The integral of a continuous function

    [scipy.stats.norm.cdf] is the integral of the normal density; the integral
    used for it is Riemann's, taken between any two bounds. *)

Section Integral.
Variable f : R -> R.
Hypothesis f_cont : continuity f.

Lemma integrable (a b : R) : Riemann_integrable f a b.
Proof.
  destruct (Rle_dec a b) as [Hab | Hab].
  - apply continuity_implies_RiemannInt; [exact Hab | intros x _; apply f_cont].
  - apply RiemannInt_P1.
    apply continuity_implies_RiemannInt; [lra | intros x _; apply f_cont].
Qed.

Definition integral (a b : R) : R := RiemannInt (integrable a b).
End Integral.

(** ** [scipy.stats.norm]

    The library is not part of the repository; its two functions are taken at
    their mathematical definition: [pdf] is exp(-x**2/2)/sqrt(2*pi), as scipy
    computes it, and [cdf] is (1 + erf(x/sqrt 2))/2, which is one half plus
    the integral of [pdf] from 0 to x. *)

Definition norm_pdf (x : R) : R := exp (- x ^ 2 / 2) / sqrt (2 * PI).

Lemma norm_pdf_derivable : derivable norm_pdf.
Proof. unfold norm_pdf. reg. Qed.

Lemma norm_pdf_continuity : continuity norm_pdf.
Proof. apply derivable_continuous, norm_pdf_derivable. Qed.

Definition norm_cdf (x : R) : R :=
  1 / 2 + integral norm_pdf norm_pdf_continuity 0 x.

Definition scipy_norm_pdf (x : R) : M R :=
  record (CallPdf x) ;;; ret (norm_pdf x).

Definition scipy_norm_cdf (x : R) : M R :=
  record (CallCdf x) ;;; ret (norm_cdf x).

(** ** The returned dict *)

Definition dict := list (string * R).

Fixpoint dict_get (k : string) (d : dict) : option R :=
  match d with
  | [] => None
  | (k', v) :: d' => if String.eqb k k' then Some v else dict_get k d'
  end.

(** ** [calculate_greeks] *)

Definition InvalidParameter : exn :=
  ValueError "All input values must be positive.".

Definition InvalidOptionType : exn :=
  ValueError "Invalid option type. Please choose 'Call' or 'Put'.".

Definition calculate_greeks (option_type : string) (S K T sigma r : R)
  : M dict :=
  (* Input validation *)
  if Rle_b S 0 || Rle_b K 0 || Rle_b T 0 || Rle_b sigma 0 || Rlt_b r 0
  then raise InvalidParameter
  else
    (* d1 = (math.log(S / K) + (r + 0.5 * sigma ** 2) * T)
            / (sigma * math.sqrt(T)) *)
    q <- py_div S K ;;
    lg <- math_log q ;;
    s <- math_sqrt T ;;
    d1 <- py_div (lg + (r + 0.5 * sigma ^ 2) * T) (sigma * s) ;;
    (* d2 = d1 - sigma * math.sqrt(T) *)
    s <- math_sqrt T ;;
    let d2 := d1 - sigma * s in
    delta <-
      (if (lower option_type =? "call")%string then
         e <- math_exp (- r * T) ;;
         c <- scipy_norm_cdf d1 ;;
         ret (e * c)
       else if (lower option_type =? "put")%string then
         e <- math_exp (- r * T) ;;
         c <- scipy_norm_cdf (- d1) ;;
         ret (- e * c)
       else raise InvalidOptionType) ;;
    (* gamma *)
    e <- math_exp (- r * T) ;;
    p <- scipy_norm_pdf d1 ;;
    s <- math_sqrt T ;;
    gamma <- py_div (e * p) (S * sigma * s) ;;
    (* theta *)
    p <- scipy_norm_pdf d1 ;;
    e <- math_exp (- r * T) ;;
    s <- math_sqrt T ;;
    t1 <- py_div (- (S * p * sigma * e)) (2 * s) ;;
    e <- math_exp (- r * T) ;;
    c <- scipy_norm_cdf d2 ;;
    let theta := t1 - r * K * e * c in
    theta <-
      (if (lower option_type =? "call")%string then
         c <- scipy_norm_cdf d1 ;;
         ret (theta + r * S * c)
       else
         c <- scipy_norm_cdf (- d1) ;;
         ret (theta + r * S * c)) ;;
    (* vega *)
    s <- math_sqrt T ;;
    p <- scipy_norm_pdf d1 ;;
    let vega := S * s * p in
    ret [("Delta"%string, delta); ("Gamma"%string, gamma);
         ("Theta"%string, theta); ("Vega"%string, vega)].

(** ** The formulas of the specification, as functions of the inputs *)

Definition d1_of (S K T sigma r : R) : R :=
  (ln (S / K) + (r + 0.5 * sigma ^ 2) * T) / (sigma * sqrt T).

Definition d2_of (S K T sigma r : R) : R :=
  d1_of S K T sigma r - sigma * sqrt T.

Definition T_common (S K T sigma r : R) : R :=
  - (S * norm_pdf (d1_of S K T sigma r) * sigma * exp (- r * T)) / (2 * sqrt T)
  - r * K * exp (- r * T) * norm_cdf (d2_of S K T sigma r).

(** The conditions of the input validation. *)
Definition valid (S K T sigma r : R) : Prop :=
  0 < S /\ 0 < K /\ 0 < T /\ 0 < sigma /\ 0 <= r.

(** The dict returned for valid numbers, by option type. *)
Definition greeks_of (is_call : bool) (S K T sigma r : R) : dict :=
  let d1 := d1_of S K T sigma r in
  [("Delta"%string,
     if is_call then exp (- r * T) * norm_cdf d1
     else - exp (- r * T) * norm_cdf (- d1));
   ("Gamma"%string,
     exp (- r * T) * norm_pdf d1 / (S * sigma * sqrt T));
   ("Theta"%string,
     T_common S K T sigma r
     + r * S * norm_cdf (if is_call then d1 else - d1));
   ("Vega"%string, S * sqrt T * norm_pdf d1)].

(** ** Auxiliary definitions used in the statements *)

(** The guard of line 20, as a proposition. *)
Definition rejected (S K T sigma r : R) : Prop :=
  S <= 0 \/ K <= 0 \/ T <= 0 \/ sigma <= 0 \/ r < 0.

(** The calls made up to and including the computation of d2. *)
Definition calls_d1 (S K T sigma r : R) (l : log) : log :=
  CallSqrt T
  :: CallDiv (ln (S / K) + (r + 0.5 * sigma ^ 2) * T) (sigma * sqrt T)
  :: CallSqrt T :: CallLog (S / K) :: CallDiv S K :: l.

(** The message carried by an exception. *)
Definition exn_message (e : exn) : string :=
  match e with
  | ValueError msg => msg
  | ZeroDivisionError msg => msg
  end.

(** Whether a word occurs in a message. *)
Definition mentions (word msg : string) : bool :=
  match index 0 word msg with
  | Some _ => true
  | None => false
  end.

(** Two characters that are equal or are the upper- and lower-case form of
    one letter. *)
Definition same_letter (c1 c2 : ascii) : bool :=
  (c1 =? c2)%char
  || (is_upper c1 && (nat_of_ascii c2 =? nat_of_ascii c1 + 32)%nat)
  || (is_upper c2 && (nat_of_ascii c1 =? nat_of_ascii c2 + 32)%nat).

(** Two strings that differ only in letter case. *)
Fixpoint same_up_to_case (s1 s2 : string) : bool :=
  match s1, s2 with
  | EmptyString, EmptyString => true
  | String c1 s1', String c2 s2' =>
      same_letter c1 c2 && same_up_to_case s1' s2'
  | _, _ => false
  end.

(** The terms of the series of exp: exp(-u) lies between consecutive partial
    sums of the alternating series. *)
Definition exp_term (u : R) (n : nat) : R := u ^ n / INR (fact n).

(** Polynomials enclosing the normal distribution function near 0. *)
Definition poly_lo (x : R) : R := (x - x ^ 3 / 6) / sqrt (2 * PI).
Definition poly_hi (x : R) : R := (x - x ^ 3 / 6 + x ^ 5 / 40) / sqrt (2 * PI).

(** ** Statements about the returned dict *)

(** The call returns a dict that holds [v] under [key]. *)
Definition returns (option_type : string) (S K T sigma r : R)
  (key : string) (v : R) : Prop :=
  exists g, outcome (calculate_greeks option_type S K T sigma r) = inr g /\
            dict_get key g = Some v.

(** The option types of lines 27 and 30. *)
Definition recognized (option_type : string) : Prop :=
  lower option_type = "call"%string \/ lower option_type = "put"%string.

(** ** The script at the end of the file (lines 53-60)

    The script calls the function inside [try], prints the four values and,
    in [except ValueError as e], prints the message.  What it writes is kept
    as a list of prints, oldest first, with the number printed kept as a
    real; the arguments of line 54 are parameters of [script] and [main]
    fixes them as the file does.  An exception that is not a ValueError is
    not caught, and [greeks[key]] raises KeyError on a missing key. *)

Inductive printed : Type :=
| PrintValue (label : string) (value : R)
| PrintMessage (msg : string).

Inductive script_exn : Type :=
| Uncaught (e : exn)
| KeyError (key : string).

(** [print(label, greeks[key])] followed by the rest of the [try] body. *)
Definition print_field (label key : string) (greeks : dict)
  (rest : list printed * option script_exn)
  : list printed * option script_exn :=
  match dict_get key greeks with
  | Some v => (PrintValue label v :: fst rest, snd rest)
  | None => ([], Some (KeyError key))
  end.

Definition script (option_type : string) (S K T sigma r : R)
  : list printed * option script_exn :=
  match outcome (calculate_greeks option_type S K T sigma r) with
  | inr greeks =>
      print_field "Delta:" "Delta" greeks
        (print_field "Gamma:" "Gamma" greeks
           (print_field "Theta:" "Theta" greeks
              (print_field "Vega:" "Vega" greeks ([], None))))
  | inl (ValueError msg) => ([PrintMessage msg], None)
  | inl e => ([], Some (Uncaught e))
  end.

Definition main : list printed * option script_exn :=
  script "Call" 100 100 1 0.2 0.05.

(** * Properties *)

(** ** The evaluation monad and the partial operations *)

Lemma bind_inr {A B} (m : M A) (k : A -> M B) l l' a :
  m l = (l', inr a) -> bind m k l = k a l'.
Proof. intros H. unfold bind. now rewrite H. Qed.

Lemma Rle_b_true x y : x <= y -> Rle_b x y = true.
Proof.
  intros H. unfold Rle_b. destruct (Rle_dec x y); [reflexivity | lra].
Qed.

Lemma Rle_b_false x y : y < x -> Rle_b x y = false.
Proof.
  intros H. unfold Rle_b. destruct (Rle_dec x y); [lra | reflexivity].
Qed.

Lemma Rlt_b_true x y : x < y -> Rlt_b x y = true.
Proof.
  intros H. unfold Rlt_b. destruct (Rlt_dec x y); [reflexivity | lra].
Qed.

Lemma Rlt_b_false x y : y <= x -> Rlt_b x y = false.
Proof.
  intros H. unfold Rlt_b. destruct (Rlt_dec x y); [lra | reflexivity].
Qed.

Lemma Req_b_true x : Req_b x x = true.
Proof.
  unfold Req_b. destruct (Req_dec_T x x); [reflexivity | contradiction].
Qed.

Lemma Req_b_false x y : x <> y -> Req_b x y = false.
Proof.
  intros H. unfold Req_b. destruct (Req_dec_T x y); [contradiction | reflexivity].
Qed.

Lemma py_div_ok x y l :
  y <> 0 -> py_div x y l = (CallDiv x y :: l, inr (x / y)).
Proof.
  intros H. unfold py_div, bind, record. now rewrite Req_b_false.
Qed.

Lemma py_div_zero x l :
  py_div x 0 l
  = (CallDiv x 0 :: l, inl (ZeroDivisionError "float division by zero")).
Proof. unfold py_div, bind, record. now rewrite Req_b_true. Qed.

Lemma math_log_ok x l :
  0 < x -> math_log x l = (CallLog x :: l, inr (ln x)).
Proof.
  intros H. unfold math_log, bind, record. now rewrite Rle_b_false.
Qed.

Lemma math_log_domain x l :
  x <= 0 ->
  math_log x l = (CallLog x :: l, inl (ValueError "math domain error")).
Proof.
  intros H. unfold math_log, bind, record. now rewrite Rle_b_true.
Qed.

Lemma math_sqrt_ok x l :
  0 <= x -> math_sqrt x l = (CallSqrt x :: l, inr (sqrt x)).
Proof.
  intros H. unfold math_sqrt, bind, record. now rewrite Rlt_b_false.
Qed.

Lemma math_exp_ok x l : math_exp x l = (CallExp x :: l, inr (exp x)).
Proof. reflexivity. Qed.

Lemma scipy_norm_pdf_ok x l :
  scipy_norm_pdf x l = (CallPdf x :: l, inr (norm_pdf x)).
Proof. reflexivity. Qed.

Lemma scipy_norm_cdf_ok x l :
  scipy_norm_cdf x l = (CallCdf x :: l, inr (norm_cdf x)).
Proof. reflexivity. Qed.

(** ** Input validation *)

Lemma guard_true S K T sigma r :
  rejected S K T sigma r ->
  Rle_b S 0 || Rle_b K 0 || Rle_b T 0 || Rle_b sigma 0 || Rlt_b r 0 = true.
Proof.
  intros [H | [H | [H | [H | H]]]];
    [ rewrite (Rle_b_true S) by exact H
    | rewrite (Rle_b_true K) by exact H
    | rewrite (Rle_b_true T) by exact H
    | rewrite (Rle_b_true sigma) by exact H
    | rewrite (Rlt_b_true r) by exact H ];
    rewrite ?orb_true_r; reflexivity.
Qed.

Lemma guard_false S K T sigma r :
  valid S K T sigma r ->
  Rle_b S 0 || Rle_b K 0 || Rle_b T 0 || Rle_b sigma 0 || Rlt_b r 0 = false.
Proof.
  intros (HS & HK & HT & Hs & Hr).
  rewrite !Rle_b_false, Rlt_b_false by assumption. reflexivity.
Qed.

Lemma valid_or_rejected S K T sigma r :
  valid S K T sigma r \/ rejected S K T sigma r.
Proof.
  unfold valid, rejected.
  destruct (Rle_dec S 0); [lra |].
  destruct (Rle_dec K 0); [lra |].
  destruct (Rle_dec T 0); [lra |].
  destruct (Rle_dec sigma 0); [lra |].
  destruct (Rlt_dec r 0); [lra |].
  left. lra.
Qed.

Lemma run_rejected option_type S K T sigma r l :
  rejected S K T sigma r ->
  calculate_greeks option_type S K T sigma r l = (l, inl InvalidParameter).
Proof.
  intros H. unfold calculate_greeks. now rewrite guard_true.
Qed.

(** ** Evaluation on valid numbers *)

Lemma run_unrecognized option_type S K T sigma r l :
  valid S K T sigma r ->
  lower option_type <> "call"%string ->
  lower option_type <> "put"%string ->
  calculate_greeks option_type S K T sigma r l
  = (calls_d1 S K T sigma r l, inl InvalidOptionType).
Proof.
  intros Hv Hc Hp. pose proof Hv as (HS & HK & HT & Hs & Hr).
  assert (HsT : 0 < sqrt T) by now apply sqrt_lt_R0.
  unfold calculate_greeks. rewrite guard_false by exact Hv.
  erewrite bind_inr by (apply py_div_ok; lra).
  erewrite bind_inr by (apply math_log_ok; now apply Rdiv_lt_0_compat).
  erewrite bind_inr by (apply math_sqrt_ok; lra).
  erewrite bind_inr by (apply py_div_ok; nra).
  erewrite bind_inr by (apply math_sqrt_ok; lra).
  apply String.eqb_neq in Hc, Hp. rewrite Hc, Hp.
  reflexivity.
Qed.

Lemma run_call option_type S K T sigma r l :
  valid S K T sigma r ->
  lower option_type = "call"%string ->
  snd (calculate_greeks option_type S K T sigma r l)
  = inr (greeks_of true S K T sigma r).
Proof.
  intros Hv Hc. pose proof Hv as (HS & HK & HT & Hs & Hr).
  assert (HsT : 0 < sqrt T) by now apply sqrt_lt_R0.
  assert (Hd1 : 0 < sigma * sqrt T) by now apply Rmult_lt_0_compat.
  assert (Hdg : 0 < S * sigma * sqrt T)
    by (apply Rmult_lt_0_compat; [now apply Rmult_lt_0_compat | exact HsT]).
  unfold calculate_greeks. rewrite guard_false by exact Hv.
  erewrite bind_inr by (apply py_div_ok; lra).
  erewrite bind_inr by (apply math_log_ok; now apply Rdiv_lt_0_compat).
  erewrite bind_inr by (apply math_sqrt_ok; lra).
  erewrite bind_inr by (apply py_div_ok; lra).
  erewrite bind_inr by (apply math_sqrt_ok; lra).
  rewrite Hc, String.eqb_refl.
  erewrite bind_inr
    by (erewrite bind_inr by apply math_exp_ok;
        erewrite bind_inr by apply scipy_norm_cdf_ok; reflexivity).
  erewrite bind_inr by apply math_exp_ok.
  erewrite bind_inr by apply scipy_norm_pdf_ok.
  erewrite bind_inr by (apply math_sqrt_ok; lra).
  erewrite bind_inr by (apply py_div_ok; lra).
  erewrite bind_inr by apply scipy_norm_pdf_ok.
  erewrite bind_inr by apply math_exp_ok.
  erewrite bind_inr by (apply math_sqrt_ok; lra).
  erewrite bind_inr by (apply py_div_ok; lra).
  erewrite bind_inr by apply math_exp_ok.
  erewrite bind_inr by apply scipy_norm_cdf_ok.
  erewrite bind_inr
    by (erewrite bind_inr by apply scipy_norm_cdf_ok; reflexivity).
  erewrite bind_inr by (apply math_sqrt_ok; lra).
  erewrite bind_inr by apply scipy_norm_pdf_ok.
  reflexivity.
Qed.

Lemma run_put option_type S K T sigma r l :
  valid S K T sigma r ->
  lower option_type = "put"%string ->
  snd (calculate_greeks option_type S K T sigma r l)
  = inr (greeks_of false S K T sigma r).
Proof.
  intros Hv Hc. pose proof Hv as (HS & HK & HT & Hs & Hr).
  assert (HsT : 0 < sqrt T) by now apply sqrt_lt_R0.
  assert (Hd1 : 0 < sigma * sqrt T) by now apply Rmult_lt_0_compat.
  assert (Hdg : 0 < S * sigma * sqrt T)
    by (apply Rmult_lt_0_compat; [now apply Rmult_lt_0_compat | exact HsT]).
  unfold calculate_greeks. rewrite guard_false by exact Hv.
  erewrite bind_inr by (apply py_div_ok; lra).
  erewrite bind_inr by (apply math_log_ok; now apply Rdiv_lt_0_compat).
  erewrite bind_inr by (apply math_sqrt_ok; lra).
  erewrite bind_inr by (apply py_div_ok; lra).
  erewrite bind_inr by (apply math_sqrt_ok; lra).
  rewrite Hc.
  change (("put" =? "call")%string) with false.
  change (("put" =? "put")%string) with true.
  erewrite bind_inr
    by (erewrite bind_inr by apply math_exp_ok;
        erewrite bind_inr by apply scipy_norm_cdf_ok; reflexivity).
  erewrite bind_inr by apply math_exp_ok.
  erewrite bind_inr by apply scipy_norm_pdf_ok.
  erewrite bind_inr by (apply math_sqrt_ok; lra).
  erewrite bind_inr by (apply py_div_ok; lra).
  erewrite bind_inr by apply scipy_norm_pdf_ok.
  erewrite bind_inr by apply math_exp_ok.
  erewrite bind_inr by (apply math_sqrt_ok; lra).
  erewrite bind_inr by (apply py_div_ok; lra).
  erewrite bind_inr by apply math_exp_ok.
  erewrite bind_inr by apply scipy_norm_cdf_ok.
  erewrite bind_inr
    by (erewrite bind_inr by apply scipy_norm_cdf_ok; reflexivity).
  erewrite bind_inr by (apply math_sqrt_ok; lra).
  erewrite bind_inr by apply scipy_norm_pdf_ok.
  reflexivity.
Qed.

(** ** The integral as a function of its upper bound *)

Lemma quot_close (i h c e : R) :
  0 < h -> 0 < e ->
  (c - e / 2) * h <= i <= (c + e / 2) * h -> Rabs (i / h - c) < e.
Proof.
  intros Hh He [Hlo Hhi].
  replace (i / h - c) with ((i - c * h) / h) by (field; lra).
  apply Rabs_def1.
  - apply Rmult_lt_reg_r with h; [exact Hh |].
    unfold Rdiv. rewrite Rmult_assoc, Rinv_l by lra. nra.
  - apply Rmult_lt_reg_r with h; [exact Hh |].
    unfold Rdiv. rewrite Rmult_assoc, Rinv_l by lra. nra.
Qed.

Section IntegralFacts.
Variable f : R -> R.
Hypothesis f_cont : continuity f.

Local Abbreviation int := (integral f f_cont).

Lemma integral_chasles a b c : int a b + int b c = int a c.
Proof. unfold integral. apply RiemannInt_P26. Qed.

Lemma integral_point a : int a a = 0.
Proof. unfold integral. apply RiemannInt_P9. Qed.

Lemma integral_swap a b : int b a = - int a b.
Proof. unfold integral. apply RiemannInt_P8. Qed.

Lemma integral_between a b lo hi :
  a <= b -> (forall x, a < x < b -> lo <= f x <= hi) ->
  lo * (b - a) <= int a b <= hi * (b - a).
Proof.
  intros Hab Hf. unfold integral. now apply RiemannInt_const_bound.
Qed.

(** The derivative of the integral in its upper bound is the integrand. *)
Lemma integral_derivable_pt_lim a x : derivable_pt_lim (int a) x (f x).
Proof.
  intros eps Heps.
  assert (He2 : 0 < eps / 2) by lra.
  destruct (f_cont x (eps / 2) He2) as [d [Hd Hclose]].
  exists (mkposreal d Hd). simpl. intros h Hh0 Hhd.
  assert (Hnear : forall t,
             Rabs (t - x) < d -> f x - eps / 2 <= f t <= f x + eps / 2).
  { intros t Ht. destruct (Req_dec t x) as [-> | Hne]; [lra |].
    assert (Hc : Rabs (f t - f x) < eps / 2).
    { apply (Hclose t). split; [ split; [exact I | auto] | exact Ht ]. }
    apply Rabs_def2 in Hc. lra. }
  assert (Hdiff : int a (x + h) - int a x = int x (x + h)).
  { rewrite <- (integral_chasles a x (x + h)). ring. }
  rewrite Hdiff.
  destruct (Rlt_dec 0 h) as [Hpos | Hneg].
  - rewrite Rabs_pos_eq in Hhd by lra.
    apply quot_close; [exact Hpos | exact Heps |].
    pose proof (integral_between x (x + h) (f x - eps / 2) (f x + eps / 2))
      as Hb.
    replace (x + h - x) with h in Hb by ring.
    apply Hb; [lra |].
    intros t Ht. apply Hnear. rewrite Rabs_pos_eq; lra.
  - assert (Hlt : h < 0) by lra.
    rewrite Rabs_left in Hhd by lra.
    rewrite integral_swap.
    replace (- int (x + h) x / h) with (int (x + h) x / (- h))
      by (field; lra).
    apply quot_close; [lra | exact Heps |].
    pose proof (integral_between (x + h) x (f x - eps / 2) (f x + eps / 2))
      as Hb.
    replace (x - (x + h)) with (- h) in Hb by ring.
    apply Hb; [lra |].
    intros t Ht. apply Hnear. rewrite Rabs_left; lra.
Qed.
End IntegralFacts.

(** ** The normal density and distribution function *)

Lemma sqrt_2PI_pos : 0 < sqrt (2 * PI).
Proof. apply sqrt_lt_R0. pose proof PI_RGT_0. lra. Qed.

Lemma norm_pdf_pos x : 0 < norm_pdf x.
Proof.
  unfold norm_pdf. apply Rdiv_lt_0_compat; [apply exp_pos | apply sqrt_2PI_pos].
Qed.

Lemma norm_pdf_even x : norm_pdf (- x) = norm_pdf x.
Proof.
  unfold norm_pdf. replace ((- x) ^ 2) with (x ^ 2) by ring. reflexivity.
Qed.

Lemma norm_cdf_derivable_pt_lim x : derivable_pt_lim norm_cdf x (norm_pdf x).
Proof.
  unfold norm_cdf.
  replace (norm_pdf x) with (0 + norm_pdf x) by ring.
  apply (derivable_pt_lim_plus (fun _ => 1 / 2)
           (integral norm_pdf norm_pdf_continuity 0)).
  - apply derivable_pt_lim_const.
  - apply integral_derivable_pt_lim.
Qed.

Lemma norm_cdf_zero : norm_cdf 0 = 1 / 2.
Proof. unfold norm_cdf. rewrite integral_point. ring. Qed.

Lemma norm_cdf_reflect_lim x :
  derivable_pt_lim (fun t => norm_cdf t + norm_cdf (- t)) x 0.
Proof.
  replace 0 with (norm_pdf x + - norm_pdf (- x))
    by (rewrite norm_pdf_even; ring).
  apply (derivable_pt_lim_plus norm_cdf (mirr_fct norm_cdf)).
  - apply norm_cdf_derivable_pt_lim.
  - apply derivable_pt_lim_mirr_fwd. rewrite Ropp_involutive.
    apply norm_cdf_derivable_pt_lim.
Qed.

(** Symmetry of the normal distribution: cdf(x) + cdf(-x) = 1. *)
Lemma norm_cdf_reflect x : norm_cdf x + norm_cdf (- x) = 1.
Proof.
  set (H := fun t => norm_cdf t + norm_cdf (- t)).
  assert (pr : derivable H).
  { intro t. exists 0. apply norm_cdf_reflect_lim. }
  assert (Hc : constant H).
  { apply (null_derivative_1 H pr). intro t.
    apply derive_pt_eq_0, norm_cdf_reflect_lim. }
  change (H x = 1). rewrite (Hc x 0). unfold H.
  rewrite Ropp_0, norm_cdf_zero. lra.
Qed.

(** ** The formulas of the four sensitivities *)

(** C1. For S, K, T, sigma > 0 and r >= 0, when the lower-cased option type is
    "call" the call returns a dict whose Delta is exp(-r*T) * cdf(d1), and
    when it is "put" a dict whose Delta is -exp(-r*T) * cdf(-d1), where
    d1 = (ln(S/K) + (r + 0.5*sigma^2)*T) / (sigma*sqrt(T)). *)
Theorem delta_formula (option_type : string) (S K T sigma r : R) :
  0 < S -> 0 < K -> 0 < T -> 0 < sigma -> 0 <= r ->
  let d1 := (ln (S / K) + (r + 0.5 * sigma ^ 2) * T) / (sigma * sqrt T) in
  (lower option_type = "call"%string ->
   exists g, outcome (calculate_greeks option_type S K T sigma r) = inr g /\
             dict_get "Delta" g = Some (exp (- r * T) * norm_cdf d1)) /\
  (lower option_type = "put"%string ->
   exists g, outcome (calculate_greeks option_type S K T sigma r) = inr g /\
             dict_get "Delta" g = Some (- exp (- r * T) * norm_cdf (- d1))).
Proof.
  intros HS HK HT Hs Hr d1.
  assert (Hv : valid S K T sigma r) by (unfold valid; auto).
  split; intros Hot.
  - exists (greeks_of true S K T sigma r). split; [| reflexivity].
    unfold outcome. now apply run_call.
  - exists (greeks_of false S K T sigma r). split; [| reflexivity].
    unfold outcome. now apply run_put.
Qed.

Lemma delta_formula_call_100 :
  exists g,
    outcome (calculate_greeks "Call" 100 100 1 0.2 0.05) = inr g /\
    dict_get "Delta" g
    = Some (exp (- (0.05) * 1)
            * norm_cdf ((ln (100 / 100) + (0.05 + 0.5 * 0.2 ^ 2) * 1)
                        / (0.2 * sqrt 1))).
Proof.
  refine (proj1 (delta_formula "Call" 100 100 1 0.2 0.05 _ _ _ _ _) _);
    try lra. reflexivity.
Defined.

(** C5. For valid numbers, Theta is T_common + r*S*cdf(d1) for a call and
    T_common + r*S*cdf(-d1) for a put, where
    T_common = -(S*pdf(d1)*sigma*exp(-r*T))/(2*sqrt(T)) - r*K*exp(-r*T)*cdf(d2)
    and d2 = d1 - sigma*sqrt(T). *)
Theorem theta_formula (option_type : string) (S K T sigma r : R) :
  0 < S -> 0 < K -> 0 < T -> 0 < sigma -> 0 <= r ->
  let d1 := (ln (S / K) + (r + 0.5 * sigma ^ 2) * T) / (sigma * sqrt T) in
  let d2 := d1 - sigma * sqrt T in
  let t_common :=
    - (S * norm_pdf d1 * sigma * exp (- r * T)) / (2 * sqrt T)
    - r * K * exp (- r * T) * norm_cdf d2 in
  (lower option_type = "call"%string ->
   exists g, outcome (calculate_greeks option_type S K T sigma r) = inr g /\
             dict_get "Theta" g = Some (t_common + r * S * norm_cdf d1)) /\
  (lower option_type = "put"%string ->
   exists g, outcome (calculate_greeks option_type S K T sigma r) = inr g /\
             dict_get "Theta" g = Some (t_common + r * S * norm_cdf (- d1))).
Proof.
  intros HS HK HT Hs Hr d1 d2 t_common.
  assert (Hv : valid S K T sigma r) by (unfold valid; auto).
  split; intros Hot.
  - exists (greeks_of true S K T sigma r). split; [| reflexivity].
    unfold outcome. now apply run_call.
  - exists (greeks_of false S K T sigma r). split; [| reflexivity].
    unfold outcome. now apply run_put.
Qed.

Lemma theta_formula_put_100 :
  exists g,
    outcome (calculate_greeks "PUT" 100 90 2 0.3 0) = inr g /\
    dict_get "Theta" g
    = Some (let d1 := (ln (100 / 90) + (0 + 0.5 * 0.3 ^ 2) * 2)
                      / (0.3 * sqrt 2) in
            - (100 * norm_pdf d1 * 0.3 * exp (- 0 * 2)) / (2 * sqrt 2)
            - 0 * 90 * exp (- 0 * 2) * norm_cdf (d1 - 0.3 * sqrt 2)
            + 0 * 100 * norm_cdf (- d1)).
Proof.
  refine (proj2 (theta_formula "PUT" 100 90 2 0.3 0 _ _ _ _ _) _);
    try lra. reflexivity.
Defined.

(** C6. For valid numbers and either option type, Gamma is
    exp(-r*T)*pdf(d1)/(S*sigma*sqrt(T)) and Vega is S*sqrt(T)*pdf(d1); a call
    and a put on the same numbers have the same Gamma and the same Vega. *)
Theorem gamma_vega_formula (call_type put_type : string) (S K T sigma r : R) :
  0 < S -> 0 < K -> 0 < T -> 0 < sigma -> 0 <= r ->
  lower call_type = "call"%string ->
  lower put_type = "put"%string ->
  let d1 := (ln (S / K) + (r + 0.5 * sigma ^ 2) * T) / (sigma * sqrt T) in
  let gamma := exp (- r * T) * norm_pdf d1 / (S * sigma * sqrt T) in
  let vega := S * sqrt T * norm_pdf d1 in
  exists gc gp,
    outcome (calculate_greeks call_type S K T sigma r) = inr gc /\
    outcome (calculate_greeks put_type S K T sigma r) = inr gp /\
    dict_get "Gamma" gc = Some gamma /\ dict_get "Vega" gc = Some vega /\
    dict_get "Gamma" gp = Some gamma /\ dict_get "Vega" gp = Some vega.
Proof.
  intros HS HK HT Hs Hr Hc Hp d1 gamma vega.
  assert (Hv : valid S K T sigma r) by (unfold valid; auto).
  exists (greeks_of true S K T sigma r), (greeks_of false S K T sigma r).
  unfold outcome. rewrite run_call, run_put by assumption.
  repeat split; reflexivity.
Qed.

Lemma gamma_vega_formula_100 :
  let d1 := (ln (100 / 100) + (0.05 + 0.5 * 0.2 ^ 2) * 1) / (0.2 * sqrt 1) in
  let gamma := exp (- (0.05) * 1) * norm_pdf d1 / (100 * 0.2 * sqrt 1) in
  let vega := 100 * sqrt 1 * norm_pdf d1 in
  exists gc gp,
    outcome (calculate_greeks "Call" 100 100 1 0.2 0.05) = inr gc /\
    outcome (calculate_greeks "Put" 100 100 1 0.2 0.05) = inr gp /\
    dict_get "Gamma" gc = Some gamma /\ dict_get "Vega" gc = Some vega /\
    dict_get "Gamma" gp = Some gamma /\ dict_get "Vega" gp = Some vega.
Proof.
  apply (gamma_vega_formula "Call" "Put" 100 100 1 0.2 0.05);
    try lra; reflexivity.
Defined.

(** C3. Put-call parity on Delta: for valid numbers, the Delta of the call
    minus the Delta of the put on the same numbers is exp(-r*T). *)
Theorem delta_parity (call_type put_type : string) (S K T sigma r : R) :
  0 < S -> 0 < K -> 0 < T -> 0 < sigma -> 0 <= r ->
  lower call_type = "call"%string ->
  lower put_type = "put"%string ->
  exists gc gp dc dp,
    outcome (calculate_greeks call_type S K T sigma r) = inr gc /\
    outcome (calculate_greeks put_type S K T sigma r) = inr gp /\
    dict_get "Delta" gc = Some dc /\ dict_get "Delta" gp = Some dp /\
    dc - dp = exp (- r * T).
Proof.
  intros HS HK HT Hs Hr Hc Hp.
  assert (Hv : valid S K T sigma r) by (unfold valid; auto).
  exists (greeks_of true S K T sigma r), (greeks_of false S K T sigma r).
  eexists. eexists.
  unfold outcome. rewrite run_call, run_put by assumption.
  repeat split; try reflexivity.
  pose proof (norm_cdf_reflect (d1_of S K T sigma r)) as Hsym.
  nra.
Qed.

Lemma delta_parity_100 :
  exists gc gp dc dp,
    outcome (calculate_greeks "Call" 100 100 1 0.2 0.05) = inr gc /\
    outcome (calculate_greeks "Put" 100 100 1 0.2 0.05) = inr gp /\
    dict_get "Delta" gc = Some dc /\ dict_get "Delta" gp = Some dp /\
    dc - dp = exp (- (0.05) * 1).
Proof.
  apply (delta_parity "Call" "Put" 100 100 1 0.2 0.05); try lra; reflexivity.
Defined.

(** C8, in exact real arithmetic. For valid numbers and a recognized option
    type the call returns a dict in which Delta, Gamma, Theta and Vega are all
    present, with Gamma >= 0 and Vega >= 0.  (On doubles the values need not
    be finite and the call need not return: see [Doubles.sigma_overflow].) *)
Theorem greeks_populated (option_type : string) (S K T sigma r : R) :
  0 < S -> 0 < K -> 0 < T -> 0 < sigma -> 0 <= r ->
  lower option_type = "call"%string \/ lower option_type = "put"%string ->
  exists g delta gamma theta vega,
    outcome (calculate_greeks option_type S K T sigma r) = inr g /\
    dict_get "Delta" g = Some delta /\ dict_get "Gamma" g = Some gamma /\
    dict_get "Theta" g = Some theta /\ dict_get "Vega" g = Some vega /\
    0 <= gamma /\ 0 <= vega.
Proof.
  intros HS HK HT Hs Hr Hot.
  assert (Hv : valid S K T sigma r) by (unfold valid; auto).
  assert (HsT : 0 < sqrt T) by now apply sqrt_lt_R0.
  pose proof (norm_pdf_pos (d1_of S K T sigma r)) as Hpdf.
  assert (Hg : 0 <= exp (- r * T) * norm_pdf (d1_of S K T sigma r)
                    / (S * sigma * sqrt T)).
  { apply Rlt_le, Rdiv_lt_0_compat.
    - apply Rmult_lt_0_compat; [apply exp_pos | exact Hpdf].
    - apply Rmult_lt_0_compat; [now apply Rmult_lt_0_compat | exact HsT]. }
  assert (Hvega : 0 <= S * sqrt T * norm_pdf (d1_of S K T sigma r)).
  { apply Rlt_le, Rmult_lt_0_compat;
      [now apply Rmult_lt_0_compat | exact Hpdf]. }
  destruct Hot as [Hot | Hot].
  - exists (greeks_of true S K T sigma r). do 4 eexists.
    unfold outcome. rewrite run_call by assumption.
    repeat split; try reflexivity; assumption.
  - exists (greeks_of false S K T sigma r). do 4 eexists.
    unfold outcome. rewrite run_put by assumption.
    repeat split; try reflexivity; assumption.
Qed.

Lemma greeks_populated_put :
  exists g delta gamma theta vega,
    outcome (calculate_greeks "put" 50 60 0.5 0.4 0) = inr g /\
    dict_get "Delta" g = Some delta /\ dict_get "Gamma" g = Some gamma /\
    dict_get "Theta" g = Some theta /\ dict_get "Vega" g = Some vega /\
    0 <= gamma /\ 0 <= vega.
Proof.
  apply (greeks_populated "put" 50 60 0.5 0.4 0); try lra.
  right. reflexivity.
Defined.

(** ** Lines 20 and 24 on IEEE doubles

    The start of [calculate_greeks] on binary64 numbers: the validation of
    line 20 and the assignment of d1 on line 24, in Python's order of
    evaluation.  Nothing in the function catches an exception, so what line
    24 raises is what the call raises.  Comparison, division, multiplication,
    addition and [math.sqrt] are the IEEE operations.  Of [math.log] and of
    the C function pow behind [sigma ** 2] only what does not depend on the
    platform's libm is fixed: the errors, the special values, log(1.0) = 0.0
    and the overflow of pow when half the square is already infinite;
    elsewhere the run is [Unmodelled]. *)

Module Doubles.
Import Stdlib.Floats.PrimFloat.
Local Open Scope float_scope.
Local Set Warnings "-inexact-float".

Inductive py_exn : Type :=
| PyValueError (msg : string)
| PyZeroDivisionError (msg : string)
| PyOverflowError (msg : string).

Inductive run (A : Type) : Type :=
| Returned (a : A)
| Raised (e : py_exn)
| Unmodelled.

Arguments Returned {A} a.
Arguments Raised {A} e.
Arguments Unmodelled {A}.

Definition and_then {A B} (m : run A) (k : A -> run B) : run B :=
  match m with
  | Returned a => k a
  | Raised e => Raised e
  | Unmodelled => Unmodelled
  end.

(** [x / y] on floats. *)
Definition float_div (x y : float) : run float :=
  if y =? 0 then Raised (PyZeroDivisionError "float division by zero")
  else Returned (x / y).

(** [math.log(x)]: nan and +inf are returned as they are, an argument that is
    zero or negative is a domain error. *)
Definition math_log (x : float) : run float :=
  if is_nan x then Returned x
  else if x <=? 0 then Raised (PyValueError "math domain error")
  else if x =? 1 then Returned 0
  else if is_infinity x then Returned x
  else Unmodelled.

(** [math.sqrt(x)]. *)
Definition math_sqrt (x : float) : run float :=
  if x <? 0 then Raised (PyValueError "math domain error")
  else Returned (sqrt x).

(** [x ** 2]: float power with the exponent 2.0.  The special cases come
    first; otherwise C's pow is called and an infinite result of finite
    operands is reported as OverflowError. *)
Definition float_pow_2 (x : float) : run float :=
  if is_nan x then Returned x
  else if is_infinity x then Returned infinity
  else if x =? 0 then Returned 0
  else if abs x =? 1 then Returned 1
  else if is_infinity (abs x * (abs x / 2))
       then Raised (PyOverflowError "(34, 'Numerical result out of range')")
       else Unmodelled.

(** Lines 20 and 24: the value assigned to d1, or the exception raised. *)
Definition calculate_greeks_d1 (S K T sigma r : float) : run float :=
  if (S <=? 0) || (K <=? 0) || (T <=? 0) || (sigma <=? 0) || (r <? 0)
  then Raised (PyValueError "All input values must be positive.")
  else
    and_then (float_div S K) (fun q =>
    and_then (math_log q) (fun lg =>
    and_then (float_pow_2 sigma) (fun p =>
    let numerator := lg + (r + 0.5 * p) * T in
    and_then (math_sqrt T) (fun s =>
    float_div numerator (sigma * s))))).

(** Against C8 as worded: S = K = 100, T = 1, sigma = 1e200, r = 0.05 are
    finite doubles that pass the validation, and the call raises
    OverflowError at [sigma ** 2] instead of returning four finite
    numbers. *)
Lemma sigma_overflow :
  (0 <? 100) = true /\ (0 <? 1) = true /\ (0 <? 1e200) = true /\
  (0 <=? 0.05) = true /\ is_finite 1e200 = true /\
  calculate_greeks_d1 100 100 1 1e200 0.05
  = Raised (PyOverflowError "(34, 'Numerical result out of range')").
Proof. vm_compute. repeat split; reflexivity. Qed.

End Doubles.

(** ** The two errors *)

Lemma errors_differ : InvalidOptionType <> InvalidParameter.
Proof. discriminate. Qed.

(** C7. For valid numbers and an option type whose lower-cased value is
    neither "call" nor "put", the call raises the invalid-option-type error,
    which differs from the invalid-parameter error, and returns no dict. *)
Theorem unrecognized_option_type (option_type : string) (S K T sigma r : R) :
  0 < S -> 0 < K -> 0 < T -> 0 < sigma -> 0 <= r ->
  lower option_type <> "call"%string ->
  lower option_type <> "put"%string ->
  outcome (calculate_greeks option_type S K T sigma r) = inl InvalidOptionType
  /\ InvalidOptionType <> InvalidParameter
  /\ (forall g, outcome (calculate_greeks option_type S K T sigma r) <> inr g).
Proof.
  intros HS HK HT Hs Hr Hc Hp.
  assert (Hv : valid S K T sigma r) by (unfold valid; auto).
  assert (Hrun : outcome (calculate_greeks option_type S K T sigma r)
                 = inl InvalidOptionType).
  { unfold outcome. now rewrite run_unrecognized. }
  split; [exact Hrun |]. split; [exact errors_differ |].
  intros g. rewrite Hrun. discriminate.
Qed.

Lemma unrecognized_straddle :
  outcome (calculate_greeks "Straddle" 100 100 1 0.2 0.05)
  = inl InvalidOptionType
  /\ InvalidOptionType <> InvalidParameter
  /\ (forall g,
        outcome (calculate_greeks "Straddle" 100 100 1 0.2 0.05) <> inr g).
Proof.
  apply (unrecognized_option_type "Straddle" 100 100 1 0.2 0.05);
    try lra; discriminate.
Defined.

Example unrecognized_empty :
  outcome (calculate_greeks "" 100 100 1 0.2 0.05) = inl InvalidOptionType.
Proof.
  unfold outcome. rewrite run_unrecognized; [reflexivity | | |];
    [unfold valid; lra | discriminate | discriminate].
Qed.

Example unrecognized_trailing_space :
  outcome (calculate_greeks "CALL " 100 100 1 0.2 0.05) = inl InvalidOptionType.
Proof.
  unfold outcome. rewrite run_unrecognized; [reflexivity | | |];
    [unfold valid; lra | discriminate | discriminate].
Qed.

(** C10. Numeric validation comes first: when a numeric constraint is violated
    and the option type is unrecognized as well, the call raises the
    invalid-parameter error and not the invalid-option-type error. *)
Theorem numeric_validation_first (option_type : string) (S K T sigma r : R) :
  S <= 0 \/ K <= 0 \/ T <= 0 \/ sigma <= 0 \/ r < 0 ->
  lower option_type <> "call"%string ->
  lower option_type <> "put"%string ->
  outcome (calculate_greeks option_type S K T sigma r) = inl InvalidParameter
  /\ outcome (calculate_greeks option_type S K T sigma r)
     <> inl InvalidOptionType.
Proof.
  intros Hrej _ _.
  assert (Hrun : outcome (calculate_greeks option_type S K T sigma r)
                 = inl InvalidParameter).
  { unfold outcome. now rewrite run_rejected. }
  split; [exact Hrun |]. rewrite Hrun. discriminate.
Qed.

Lemma numeric_validation_first_straddle :
  outcome (calculate_greeks "Straddle" 100 100 0 0.2 0.05)
  = inl InvalidParameter
  /\ outcome (calculate_greeks "Straddle" 100 100 0 0.2 0.05)
     <> inl InvalidOptionType.
Proof.
  apply (numeric_validation_first "Straddle" 100 100 0 0.2 0.05);
    [ right; right; left; lra | discriminate | discriminate ].
Defined.

Lemma invalid_parameter_only_if_rejected option_type S K T sigma r :
  outcome (calculate_greeks option_type S K T sigma r) = inl InvalidParameter ->
  rejected S K T sigma r.
Proof.
  intros Hrun.
  destruct (valid_or_rejected S K T sigma r) as [Hv | Hrej]; [| exact Hrej].
  exfalso. unfold outcome in Hrun.
  destruct (string_dec (lower option_type) "call") as [Hc | Hc].
  - rewrite run_call in Hrun by assumption. discriminate.
  - destruct (string_dec (lower option_type) "put") as [Hp | Hp].
    + rewrite run_put in Hrun by assumption. discriminate.
    + rewrite run_unrecognized in Hrun by assumption. discriminate.
Qed.

(** C2, as the code has it. The call raises the invalid-parameter error if
    and only if S <= 0 or K <= 0 or T <= 0 or sigma <= 0 or r < 0; it is
    raised before any division and before any call to log, sqrt, exp, pdf or
    cdf (the call log is empty); and its message is
    "All input values must be positive.", which names positivity only. *)
Theorem invalid_parameter_iff (option_type : string) (S K T sigma r : R) :
  (outcome (calculate_greeks option_type S K T sigma r) = inl InvalidParameter
   <-> S <= 0 \/ K <= 0 \/ T <= 0 \/ sigma <= 0 \/ r < 0)
  /\ (S <= 0 \/ K <= 0 \/ T <= 0 \/ sigma <= 0 \/ r < 0 ->
      calls (calculate_greeks option_type S K T sigma r) = [])
  /\ exn_message InvalidParameter = "All input values must be positive."%string
  /\ mentions "positive" (exn_message InvalidParameter) = true.
Proof.
  split; [split |].
  - apply invalid_parameter_only_if_rejected.
  - intros Hrej. unfold outcome. now rewrite run_rejected.
  - split; [| split; reflexivity].
    intros Hrej. unfold calls. now rewrite run_rejected.
Qed.

Lemma invalid_parameter_zero_time :
  outcome (calculate_greeks "Call" 100 100 0 0.2 0.05) = inl InvalidParameter
  /\ calls (calculate_greeks "Call" 100 100 0 0.2 0.05) = [].
Proof.
  pose proof (invalid_parameter_iff "Call" 100 100 0 0.2 0.05)
    as [[_ Hfail] [Hcalls _]].
  assert (Hrej : 100 <= 0 \/ 100 <= 0 \/ 0 <= 0 \/ 0.2 <= 0 \/ 0.05 < 0)
    by (right; right; left; lra).
  split; [exact (Hfail Hrej) | exact (Hcalls Hrej)].
Defined.

(** Against C2 as worded: for a negative rate the message raised is the same
    sentence about positive values; it mentions neither the rate nor
    non-negativity. *)
Lemma negative_rate_message :
  exists e,
    outcome (calculate_greeks "Call" 100 100 1 0.2 (-1)) = inl e /\
    exn_message e = "All input values must be positive."%string /\
    mentions "rate" (exn_message e) = false /\
    mentions "negative" (exn_message e) = false.
Proof.
  exists InvalidParameter. split; [| repeat split; reflexivity].
  unfold outcome. rewrite run_rejected; [reflexivity |].
  unfold rejected. lra.
Qed.

(** ** Letter case of the option type *)

Lemma lower_char_of_upper c1 c2 :
  is_upper c1 = true ->
  nat_of_ascii c2 = (nat_of_ascii c1 + 32)%nat ->
  lower_char c1 = lower_char c2.
Proof.
  intros Hup Hn. unfold lower_char. rewrite Hup.
  assert (Hlow : is_upper c2 = false).
  { unfold is_upper in *. rewrite Hn.
    apply andb_true_iff in Hup as [Hlo Hhi].
    apply Nat.leb_le in Hlo, Hhi.
    apply andb_false_iff. right. apply Nat.leb_gt. lia. }
  rewrite Hlow, <- Hn. now rewrite ascii_nat_embedding.
Qed.

Lemma same_letter_lower c1 c2 :
  same_letter c1 c2 = true -> lower_char c1 = lower_char c2.
Proof.
  unfold same_letter. intros H.
  apply orb_true_iff in H as [H | H]; [apply orb_true_iff in H as [H | H] |].
  - apply Ascii.eqb_eq in H. now subst.
  - apply andb_true_iff in H as [Hup Hn]. apply Nat.eqb_eq in Hn.
    now apply lower_char_of_upper.
  - apply andb_true_iff in H as [Hup Hn]. apply Nat.eqb_eq in Hn.
    symmetry. now apply lower_char_of_upper.
Qed.

Lemma same_up_to_case_lower s1 :
  forall s2, same_up_to_case s1 s2 = true -> lower s1 = lower s2.
Proof.
  induction s1 as [| c1 s1 IH]; intros [| c2 s2] H; simpl in *;
    try discriminate; [reflexivity |].
  apply andb_true_iff in H as [Hc Hs].
  now rewrite (same_letter_lower _ _ Hc), (IH _ Hs).
Qed.

(** C9. For any numbers, two option-type strings that differ only in letter
    case give the same result: the same dict or the same error. *)
Theorem case_insensitive (s1 s2 : string) (S K T sigma r : R) :
  same_up_to_case s1 s2 = true ->
  outcome (calculate_greeks s1 S K T sigma r)
  = outcome (calculate_greeks s2 S K T sigma r).
Proof.
  intros H. apply same_up_to_case_lower in H.
  unfold outcome, calculate_greeks. now rewrite H.
Qed.

Lemma case_insensitive_CALL :
  outcome (calculate_greeks "CALL" 100 100 1 0.2 0.05)
  = outcome (calculate_greeks "call" 100 100 1 0.2 0.05).
Proof.
  apply (case_insensitive "CALL" "call" 100 100 1 0.2 0.05). reflexivity.
Defined.

(** ** Numeric enclosures

    Bounds on exp, pi and the normal distribution function, used to evaluate
    the function on concrete numbers. *)

Lemma exp_term_decreasing u : 0 <= u <= 1 -> Un_decreasing (exp_term u).
Proof.
  intros [H0 H1] n. unfold exp_term.
  assert (Hf : 0 < INR (fact n)) by apply INR_fact_lt_0.
  assert (Hp : 0 <= u ^ n) by now apply pow_le.
  rewrite fact_simpl, mult_INR, S_INR. simpl pow.
  assert (Hn : 0 <= INR n) by apply pos_INR.
  apply Rmult_le_reg_r with ((INR n + 1) * INR (fact n)); [nra |].
  unfold Rdiv. rewrite Rmult_assoc, Rinv_l by nra.
  replace (u ^ n * / INR (fact n) * ((INR n + 1) * INR (fact n)))
    with (u ^ n * (INR n + 1)) by (field; lra).
  nra.
Qed.

Lemma exp_series_alt u :
  Un_cv (fun N => sum_f_R0 (tg_alt (exp_term u)) N) (exp (- u)).
Proof.
  pose proof (proj2_sig (exist_exp (- u))) as Hs.
  change (proj1_sig (exist_exp (- u))) with (exp (- u)) in Hs.
  unfold exp_in, infinite_sum in Hs.
  intros eps Heps. destruct (Hs eps Heps) as [N HN].
  exists N. intros n Hn.
  replace (sum_f_R0 (tg_alt (exp_term u)) n)
    with (sum_f_R0 (fun i => / INR (fact i) * (- u) ^ i) n);
    [now apply HN |].
  apply sum_eq. intros i _. unfold tg_alt, exp_term.
  replace (- u) with (-1 * u) by ring. rewrite Rpow_mult_distr.
  unfold Rdiv. ring.
Qed.

Lemma exp_neg_between u N :
  0 <= u <= 1 ->
  sum_f_R0 (tg_alt (exp_term u)) (S (2 * N)) <= exp (- u)
  <= sum_f_R0 (tg_alt (exp_term u)) (2 * N).
Proof.
  intros Hu. apply alternated_series_ineq.
  - now apply exp_term_decreasing.
  - apply cv_speed_pow_fact.
  - apply exp_series_alt.
Qed.

Lemma exp_neg_cubic u :
  0 <= u <= 1 ->
  1 - u + u ^ 2 / 2 - u ^ 3 / 6 <= exp (- u) <= 1 - u + u ^ 2 / 2.
Proof.
  intros Hu. pose proof (exp_neg_between u 1 Hu) as H.
  unfold tg_alt, exp_term in H. simpl in H. lra.
Qed.

Lemma PI_between : 3.14159 < PI < 3.1416.
Proof.
  pose proof (PI_2_3_7_ineq 2) as H.
  unfold tg_alt, PI_2_3_7_tg, Ratan_seq in H. simpl in H. lra.
Qed.

Lemma increment_le f g f' g' a b :
  a <= b ->
  (forall c, derivable_pt_lim f c (f' c)) ->
  (forall c, derivable_pt_lim g c (g' c)) ->
  (forall c, a <= c <= b -> g' c <= f' c) ->
  g b - g a <= f b - f a.
Proof.
  intros Hab Hf Hg Hle.
  assert (prf : derivable f) by (intro c; exists (f' c); apply Hf).
  assert (prg : derivable g) by (intro c; exists (g' c); apply Hg).
  apply (IAF_var f g a b prf prg Hab).
  intros c Hc.
  rewrite (derive_pt_eq_0 _ _ _ (prf c) (Hf c)).
  rewrite (derive_pt_eq_0 _ _ _ (prg c) (Hg c)).
  now apply Hle.
Qed.

Lemma scaled_pow_lim (a : R) (n : nat) x :
  derivable_pt_lim (fun y => a * y ^ n) x (a * (INR n * x ^ pred n)).
Proof.
  apply (derivable_pt_lim_scal (fun y => y ^ n)), derivable_pt_lim_pow.
Qed.

Lemma odd_quintic_lim (a1 a3 a5 : R) x :
  derivable_pt_lim (fun y => a1 * y ^ 1 + a3 * y ^ 3 + a5 * y ^ 5) x
    (a1 + 3 * a3 * x ^ 2 + 5 * a5 * x ^ 4).
Proof.
  replace (a1 + 3 * a3 * x ^ 2 + 5 * a5 * x ^ 4)
    with (a1 * (INR 1 * x ^ pred 1) + a3 * (INR 3 * x ^ pred 3)
          + a5 * (INR 5 * x ^ pred 5)) by (simpl; ring).
  apply (derivable_pt_lim_plus
           (fun y => a1 * y ^ 1 + a3 * y ^ 3) (fun y => a5 * y ^ 5)).
  - apply (derivable_pt_lim_plus (fun y => a1 * y ^ 1) (fun y => a3 * y ^ 3));
      apply scaled_pow_lim.
  - apply scaled_pow_lim.
Qed.

Lemma poly_lo_lim x :
  derivable_pt_lim poly_lo x ((1 - x ^ 2 / 2) / sqrt (2 * PI)).
Proof.
  pose proof sqrt_2PI_pos as Hpos.
  set (k := / sqrt (2 * PI)).
  apply derivable_pt_lim_ext
    with (f := fun y => k * y ^ 1 + (- k / 6) * y ^ 3 + 0 * y ^ 5).
  - intros y. unfold poly_lo, k. field. lra.
  - replace ((1 - x ^ 2 / 2) / sqrt (2 * PI))
      with (k + 3 * (- k / 6) * x ^ 2 + 5 * 0 * x ^ 4)
      by (unfold k; field; lra).
    apply odd_quintic_lim.
Qed.

Lemma poly_hi_lim x :
  derivable_pt_lim poly_hi x ((1 - x ^ 2 / 2 + x ^ 4 / 8) / sqrt (2 * PI)).
Proof.
  pose proof sqrt_2PI_pos as Hpos.
  set (k := / sqrt (2 * PI)).
  apply derivable_pt_lim_ext
    with (f := fun y => k * y ^ 1 + (- k / 6) * y ^ 3 + (k / 40) * y ^ 5).
  - intros y. unfold poly_hi, k. field. lra.
  - replace ((1 - x ^ 2 / 2 + x ^ 4 / 8) / sqrt (2 * PI))
      with (k + 3 * (- k / 6) * x ^ 2 + 5 * (k / 40) * x ^ 4)
      by (unfold k; field; lra).
    apply odd_quintic_lim.
Qed.

(** For 0 <= x <= 1 the distribution function lies between two polynomials. *)
Lemma norm_cdf_between x :
  0 <= x <= 1 ->
  1 / 2 + poly_lo x <= norm_cdf x <= 1 / 2 + poly_hi x.
Proof.
  intros Hx.
  pose proof sqrt_2PI_pos as Hpos.
  assert (Hlo0 : poly_lo 0 = 0) by (unfold poly_lo; field; lra).
  assert (Hhi0 : poly_hi 0 = 0) by (unfold poly_hi; field; lra).
  assert (Hgauss : forall c, 0 <= c <= x ->
            1 - c ^ 2 / 2 <= exp (- c ^ 2 / 2) <= 1 - c ^ 2 / 2 + c ^ 4 / 8).
  { intros c Hc.
    assert (Hu : 0 <= c ^ 2 / 2 <= 1) by nra.
    pose proof (exp_neg_cubic (c ^ 2 / 2) Hu) as [Hl Hh].
    replace (- (c ^ 2 / 2)) with (- c ^ 2 / 2) in * by field.
    split.
    - pose proof (exp_ineq1_le (- c ^ 2 / 2)). lra.
    - replace (c ^ 4 / 8) with ((c ^ 2 / 2) ^ 2 / 2) by field. lra. }
  split.
  - pose proof (increment_le norm_cdf poly_lo norm_pdf _ 0 x (proj1 Hx)
                  norm_cdf_derivable_pt_lim poly_lo_lim) as H.
    rewrite norm_cdf_zero, Hlo0 in H.
    cut (poly_lo x - 0 <= norm_cdf x - 1 / 2); [lra |].
    apply H. intros c Hc. unfold norm_pdf.
    apply Rmult_le_compat_r; [left; now apply Rinv_0_lt_compat |].
    now apply Hgauss.
  - pose proof (increment_le poly_hi norm_cdf _ norm_pdf 0 x (proj1 Hx)
                  poly_hi_lim norm_cdf_derivable_pt_lim) as H.
    rewrite norm_cdf_zero, Hhi0 in H.
    cut (norm_cdf x - 1 / 2 <= poly_hi x - 0); [lra |].
    apply H. intros c Hc. unfold norm_pdf.
    apply Rmult_le_compat_r; [left; now apply Rinv_0_lt_compat |].
    now apply Hgauss.
Qed.

Lemma sqrt_2PI_between : 2.50662 <= sqrt (2 * PI) <= 2.50664.
Proof.
  pose proof PI_between as [Hlo Hhi].
  split.
  - rewrite <- (sqrt_square 2.50662) by lra.
    apply sqrt_le_1_alt. lra.
  - rewrite <- (sqrt_square 2.50664) by lra.
    apply sqrt_le_1_alt. lra.
Qed.

(** ** The at-the-money one-year call *)

Lemma d1_atm : d1_of 100 100 1 0.2 0.05 = 0.35.
Proof.
  unfold d1_of. replace (100 / 100) with 1 by field.
  rewrite ln_1, sqrt_1. lra.
Qed.

Lemma d2_atm : d2_of 100 100 1 0.2 0.05 = 0.15.
Proof. unfold d2_of. rewrite d1_atm, sqrt_1. lra. Qed.

Lemma discount_atm : 0.95122 <= exp (- (0.05) * 1) <= 0.95125.
Proof.
  replace (- (0.05) * 1) with (- (0.05)) by ring.
  pose proof (exp_neg_cubic 0.05) as H. lra.
Qed.

Lemma inv_sqrt_2PI_between : 0.39894 <= / sqrt (2 * PI) <= 0.398944.
Proof.
  pose proof sqrt_2PI_between as [Hlo Hhi].
  assert (Hk : sqrt (2 * PI) * / sqrt (2 * PI) = 1) by (apply Rinv_r; lra).
  assert (Hpos : 0 < / sqrt (2 * PI)) by (apply Rinv_0_lt_compat; lra).
  nra.
Qed.

Lemma norm_cdf_035 : 0.63677 <= norm_cdf 0.35 <= 0.63684.
Proof.
  pose proof (norm_cdf_between 0.35) as H.
  pose proof inv_sqrt_2PI_between as Hk.
  unfold poly_lo, poly_hi, Rdiv in H.
  set (k := / sqrt (2 * PI)) in *.
  nra.
Qed.

Lemma norm_cdf_015 : 0.55961 <= norm_cdf 0.15 <= 0.55962.
Proof.
  pose proof (norm_cdf_between 0.15) as H.
  pose proof inv_sqrt_2PI_between as Hk.
  unfold poly_lo, poly_hi, Rdiv in H.
  set (k := / sqrt (2 * PI)) in *.
  nra.
Qed.

Lemma norm_pdf_035 : 0.37523 <= norm_pdf 0.35 <= 0.37526.
Proof.
  unfold norm_pdf.
  replace (- 0.35 ^ 2 / 2) with (- (0.06125)) by lra.
  pose proof (exp_neg_cubic 0.06125) as He.
  pose proof inv_sqrt_2PI_between as Hk.
  unfold Rdiv.
  set (k := / sqrt (2 * PI)) in *. set (e := exp (- (0.06125))) in *.
  nra.
Qed.

(** The dict returned for the at-the-money call, with enclosures of its
    four values. *)
Lemma atm_call_values :
  exists delta gamma theta vega,
    outcome (calculate_greeks "Call" 100 100 1 0.2 0.05)
    = inr [("Delta"%string, delta); ("Gamma"%string, gamma);
           ("Theta"%string, theta); ("Vega"%string, vega)] /\
    0.6057 <= delta <= 0.6058 /\
    0.0178 <= gamma <= 0.0179 /\
    -3.048 <= theta <= -3.046 /\
    37.523 <= vega <= 37.526.
Proof.
  do 4 eexists. split.
  - unfold outcome.
    rewrite run_call; [reflexivity | unfold valid; lra | reflexivity].
  - unfold T_common. rewrite d2_atm, d1_atm, sqrt_1.
    pose proof discount_atm as He.
    pose proof norm_cdf_035 as Hc1.
    pose proof norm_cdf_015 as Hc2.
    pose proof norm_pdf_035 as Hp.
    set (e := exp (- (0.05) * 1)) in *.
    set (c1 := norm_cdf 0.35) in *.
    set (c2 := norm_cdf 0.15) in *.
    set (p := norm_pdf 0.35) in *.
    repeat split; nra.
Qed.

(** Against C4 as worded: on these numbers Delta is more than 1e-2 away from
    0.6368 and Theta more than 1e-2 away from -6.414. *)
Lemma atm_call_off_table :
  exists g delta theta,
    outcome (calculate_greeks "Call" 100 100 1 0.2 0.05) = inr g /\
    dict_get "Delta" g = Some delta /\ dict_get "Theta" g = Some theta /\
    0.01 < Rabs (delta - 0.6368) /\ 0.01 < Rabs (theta - (-6.414)).
Proof.
  destruct atm_call_values
    as (delta & gamma & theta & vega & Hrun & Hd & _ & Ht & _).
  eexists. exists delta, theta. split; [exact Hrun |].
  repeat split; try reflexivity.
  - rewrite Rabs_left by lra. lra.
  - rewrite Rabs_right by lra. lra.
Qed.

(** C4, with the values the code returns. The call on
    ("Call", 100, 100, 1, 0.2, 0.05) returns Delta within 1e-2 of 0.6058,
    Gamma within 1e-2 of 0.0188, Theta within 1e-2 of -3.047 and Vega within
    1e-2 of 37.52. *)
Theorem atm_call_scenario :
  exists g delta gamma theta vega,
    outcome (calculate_greeks "Call" 100 100 1 0.2 0.05) = inr g /\
    dict_get "Delta" g = Some delta /\ dict_get "Gamma" g = Some gamma /\
    dict_get "Theta" g = Some theta /\ dict_get "Vega" g = Some vega /\
    Rabs (delta - 0.6058) <= 0.01 /\
    Rabs (gamma - 0.0188) <= 0.01 /\
    Rabs (theta - (-3.047)) <= 0.01 /\
    Rabs (vega - 37.52) <= 0.01.
Proof.
  destruct atm_call_values
    as (delta & gamma & theta & vega & Hrun & Hd & Hg & Ht & Hv).
  eexists. exists delta, gamma, theta, vega. split; [exact Hrun |].
  repeat split; try reflexivity; apply Rabs_le; lra.
Qed.

(** * Further properties of the function and of the script *)

(** ** Classification of the outcomes *)

Lemma recognized_dec option_type :
  {lower option_type = "call"%string} + {lower option_type = "put"%string}
  + {lower option_type <> "call"%string /\ lower option_type <> "put"%string}.
Proof.
  destruct (string_dec (lower option_type) "call") as [Hc | Hc];
    [left; left; exact Hc |].
  destruct (string_dec (lower option_type) "put") as [Hp | Hp];
    [left; right; exact Hp | right; split; assumption].
Qed.

Lemma outcome_cases option_type S K T sigma r :
  (rejected S K T sigma r /\
   outcome (calculate_greeks option_type S K T sigma r) = inl InvalidParameter)
  \/ (valid S K T sigma r /\ ~ recognized option_type /\
      outcome (calculate_greeks option_type S K T sigma r)
      = inl InvalidOptionType)
  \/ (valid S K T sigma r /\ recognized option_type /\
      exists g, outcome (calculate_greeks option_type S K T sigma r) = inr g).
Proof.
  destruct (valid_or_rejected S K T sigma r) as [Hv | Hrej].
  - right. destruct (recognized_dec option_type) as [[Hc | Hp] | [Hc Hp]].
    + right. split; [exact Hv |]. split; [now left |].
      eexists. unfold outcome. now apply run_call.
    + right. split; [exact Hv |]. split; [now right |].
      eexists. unfold outcome. now apply run_put.
    + left. split; [exact Hv |]. split; [intros [H | H]; contradiction |].
      unfold outcome. now rewrite run_unrecognized.
  - left. split; [exact Hrej |]. unfold outcome. now rewrite run_rejected.
Qed.

Lemma success_only_if option_type S K T sigma r g :
  outcome (calculate_greeks option_type S K T sigma r) = inr g ->
  valid S K T sigma r /\ recognized option_type.
Proof.
  intros Hg.
  destruct (outcome_cases option_type S K T sigma r)
    as [[_ H] | [(_ & _ & H) | (Hv & Hr & _)]];
    [rewrite H in Hg; discriminate | rewrite H in Hg; discriminate |].
  split; assumption.
Qed.

(** X2. A dict is returned only when none of the conditions of line 20 holds
    and the lower-cased option type is "call" or "put". *)
Theorem dict_only_if (option_type : string) (S K T sigma r : R) (g : dict) :
  outcome (calculate_greeks option_type S K T sigma r) = inr g ->
  ~ (S <= 0 \/ K <= 0 \/ T <= 0 \/ sigma <= 0 \/ r < 0) /\
  (lower option_type = "call"%string \/ lower option_type = "put"%string).
Proof.
  intros Hg. destruct (success_only_if _ _ _ _ _ _ _ Hg) as [Hv Hr].
  split; [| exact Hr]. unfold valid in Hv. lra.
Qed.

Lemma dict_only_if_call_100 :
  ~ (100 <= 0 \/ 100 <= 0 \/ 1 <= 0 \/ 0.2 <= 0 \/ 0.05 < 0) /\
  (lower "Call" = "call"%string \/ lower "Call" = "put"%string).
Proof.
  apply (dict_only_if "Call" 100 100 1 0.2 0.05
           (greeks_of true 100 100 1 0.2 0.05)).
  unfold outcome. apply run_call; [unfold valid; lra | reflexivity].
Defined.

(** X3. The invalid-option-type error is raised only when none of the
    conditions of line 20 holds and the lower-cased option type is neither
    "call" nor "put". *)
Theorem invalid_option_type_only_if
  (option_type : string) (S K T sigma r : R) :
  outcome (calculate_greeks option_type S K T sigma r) = inl InvalidOptionType
  -> ~ (S <= 0 \/ K <= 0 \/ T <= 0 \/ sigma <= 0 \/ r < 0) /\
     lower option_type <> "call"%string /\ lower option_type <> "put"%string.
Proof.
  intros Hrun.
  destruct (outcome_cases option_type S K T sigma r)
    as [[_ H] | [(Hv & Hn & _) | (_ & _ & [g H])]];
    [rewrite H in Hrun; discriminate | | rewrite H in Hrun; discriminate].
  split; [unfold valid in Hv; lra |]. unfold recognized in Hn. tauto.
Qed.

Lemma invalid_option_type_only_if_straddle :
  ~ (100 <= 0 \/ 100 <= 0 \/ 1 <= 0 \/ 0.2 <= 0 \/ 0.05 < 0) /\
  lower "Straddle" <> "call"%string /\ lower "Straddle" <> "put"%string.
Proof.
  apply (invalid_option_type_only_if "Straddle" 100 100 1 0.2 0.05).
  unfold outcome.
  rewrite run_unrecognized; [reflexivity | unfold valid; lra | |]; discriminate.
Defined.

(** X4. For valid numbers and an unrecognized option type the error is raised
    only after d1 and d2 have been computed: the calls made are S/K, log,
    sqrt, the division by sigma*sqrt(T) and sqrt again, and nothing else. *)
Theorem unrecognized_after_d2 (option_type : string) (S K T sigma r : R) :
  0 < S -> 0 < K -> 0 < T -> 0 < sigma -> 0 <= r ->
  lower option_type <> "call"%string ->
  lower option_type <> "put"%string ->
  rev (calls (calculate_greeks option_type S K T sigma r))
  = [CallDiv S K; CallLog (S / K); CallSqrt T;
     CallDiv (ln (S / K) + (r + 0.5 * sigma ^ 2) * T) (sigma * sqrt T);
     CallSqrt T].
Proof.
  intros HS HK HT Hs Hr Hc Hp.
  unfold calls. rewrite run_unrecognized; [reflexivity | | exact Hc | exact Hp].
  unfold valid. auto.
Qed.

Lemma unrecognized_after_d2_straddle :
  rev (calls (calculate_greeks "Straddle" 100 90 1 0.2 0.05))
  = [CallDiv 100 90; CallLog (100 / 90); CallSqrt 1;
     CallDiv (ln (100 / 90) + (0.05 + 0.5 * 0.2 ^ 2) * 1) (0.2 * sqrt 1);
     CallSqrt 1].
Proof.
  apply (unrecognized_after_d2 "Straddle" 100 90 1 0.2 0.05);
    try lra; discriminate.
Defined.

Lemma lower_length s : String.length (lower s) = String.length s.
Proof. induction s as [| c s IH]; simpl; [reflexivity | now rewrite IH]. Qed.

(** X5. The option type is neither trimmed nor matched by prefix: for valid
    numbers, a string whose length is neither 4 nor 3 raises the
    invalid-option-type error. *)
Theorem wrong_length_unrecognized (option_type : string) (S K T sigma r : R) :
  0 < S -> 0 < K -> 0 < T -> 0 < sigma -> 0 <= r ->
  String.length option_type <> 4%nat ->
  String.length option_type <> 3%nat ->
  outcome (calculate_greeks option_type S K T sigma r) = inl InvalidOptionType.
Proof.
  intros HS HK HT Hs Hr H4 H3.
  unfold outcome.
  rewrite run_unrecognized; [reflexivity | unfold valid; auto | |].
  - intros H. apply H4. rewrite <- lower_length, H. reflexivity.
  - intros H. apply H3. rewrite <- lower_length, H. reflexivity.
Qed.

Lemma wrong_length_trailing_space :
  outcome (calculate_greeks "call " 100 90 1 0.2 0.05) = inl InvalidOptionType.
Proof.
  apply (wrong_length_unrecognized "call " 100 90 1 0.2 0.05);
    try lra; simpl; lia.
Defined.

(** ** Relations between the returned values *)

Lemma returns_call option_type S K T sigma r key v :
  valid S K T sigma r -> lower option_type = "call"%string ->
  dict_get key (greeks_of true S K T sigma r) = Some v ->
  returns option_type S K T sigma r key v.
Proof.
  intros Hv Hc Hget. exists (greeks_of true S K T sigma r).
  split; [| exact Hget]. unfold outcome. now apply run_call.
Qed.

Lemma returns_put option_type S K T sigma r key v :
  valid S K T sigma r -> lower option_type = "put"%string ->
  dict_get key (greeks_of false S K T sigma r) = Some v ->
  returns option_type S K T sigma r key v.
Proof.
  intros Hv Hc Hget. exists (greeks_of false S K T sigma r).
  split; [| exact Hget]. unfold outcome. now apply run_put.
Qed.

Lemma returns_call_inv option_type S K T sigma r key v :
  valid S K T sigma r -> lower option_type = "call"%string ->
  returns option_type S K T sigma r key v ->
  dict_get key (greeks_of true S K T sigma r) = Some v.
Proof.
  intros Hv Hc [g [Hrun Hget]]. unfold outcome in Hrun.
  rewrite run_call in Hrun by assumption.
  injection Hrun as <-. exact Hget.
Qed.

Lemma returns_put_inv option_type S K T sigma r key v :
  valid S K T sigma r -> lower option_type = "put"%string ->
  returns option_type S K T sigma r key v ->
  dict_get key (greeks_of false S K T sigma r) = Some v.
Proof.
  intros Hv Hc [g [Hrun Hget]]. unfold outcome in Hrun.
  rewrite run_put in Hrun by assumption.
  injection Hrun as <-. exact Hget.
Qed.

(** The slope of d1 in the underlying price. *)
Lemma d1_of_lim S K T sigma r :
  0 < S -> 0 < K -> 0 < T -> 0 < sigma ->
  derivable_pt_lim (fun s => d1_of s K T sigma r) S (/ (S * sigma * sqrt T)).
Proof.
  intros HS HK HT Hs.
  assert (HsT : 0 < sqrt T) by now apply sqrt_lt_R0.
  assert (Hq : 0 < S / K) by now apply Rdiv_lt_0_compat.
  unfold d1_of.
  replace (/ (S * sigma * sqrt T))
    with ((/ (S / K) * (1 / K) + 0) / (sigma * sqrt T)) by (field; lra).
  apply (derivable_pt_lim_div_scal
           (fun s => ln (s / K) + (r + 0.5 * sigma ^ 2) * T)).
  apply (derivable_pt_lim_plus (fun s => ln (s / K))
           (fun _ => (r + 0.5 * sigma ^ 2) * T)).
  - apply (derivable_pt_lim_comp (fun s => s / K) ln).
    + apply (derivable_pt_lim_div_scal id), derivable_pt_lim_id.
    + now apply derivable_pt_lim_ln.
  - apply derivable_pt_lim_const.
Qed.

(** X6. Gamma is the slope of Delta: for valid numbers and a recognized
    option type, the Gamma returned at S is the derivative in the underlying
    price of the Delta the function returns (K, T, sigma, r fixed). *)
Theorem gamma_is_delta_slope (option_type : string) (S K T sigma r : R) :
  0 < S -> 0 < K -> 0 < T -> 0 < sigma -> 0 <= r ->
  lower option_type = "call"%string \/ lower option_type = "put"%string ->
  exists (D : R -> R) (gamma : R),
    (forall s, 0 < s -> returns option_type s K T sigma r "Delta" (D s)) /\
    returns option_type S K T sigma r "Gamma" gamma /\
    derivable_pt_lim D S gamma.
Proof.
  intros HS HK HT Hs Hr Hot.
  assert (Hv : forall s, 0 < s -> valid s K T sigma r)
    by (intros s Hs0; unfold valid; auto).
  assert (HsT : 0 < sqrt T) by now apply sqrt_lt_R0.
  pose proof (d1_of_lim S K T sigma r HS HK HT Hs) as Hd1.
  destruct Hot as [Hot | Hot].
  - exists (fun s => exp (- r * T) * norm_cdf (d1_of s K T sigma r)).
    eexists. split; [| split].
    + intros s Hs0. apply returns_call; auto.
    + apply returns_call; auto. reflexivity.
    + replace (exp (- r * T) * norm_pdf (d1_of S K T sigma r)
               / (S * sigma * sqrt T))
        with (exp (- r * T)
              * (norm_pdf (d1_of S K T sigma r) * / (S * sigma * sqrt T)))
        by (field; lra).
      apply (derivable_pt_lim_scal
               (fun s => norm_cdf (d1_of s K T sigma r))).
      apply (derivable_pt_lim_comp (fun s => d1_of s K T sigma r) norm_cdf);
        [exact Hd1 | apply norm_cdf_derivable_pt_lim].
  - exists (fun s => - exp (- r * T) * norm_cdf (- d1_of s K T sigma r)).
    eexists. split; [| split].
    + intros s Hs0. apply returns_put; auto.
    + apply returns_put; auto. reflexivity.
    + replace (exp (- r * T) * norm_pdf (d1_of S K T sigma r)
               / (S * sigma * sqrt T))
        with (- exp (- r * T)
              * (norm_pdf (- d1_of S K T sigma r)
                 * - / (S * sigma * sqrt T)))
        by (rewrite norm_pdf_even; field; lra).
      apply (derivable_pt_lim_scal
               (fun s => norm_cdf (- d1_of s K T sigma r))).
      apply (derivable_pt_lim_comp (fun s => - d1_of s K T sigma r) norm_cdf);
        [| apply norm_cdf_derivable_pt_lim].
      apply (derivable_pt_lim_opp (fun s => d1_of s K T sigma r)), Hd1.
Qed.

Lemma gamma_is_delta_slope_put :
  exists (D : R -> R) (gamma : R),
    (forall s, 0 < s -> returns "Put" s 90 1 0.2 0.05 "Delta" (D s)) /\
    returns "Put" 100 90 1 0.2 0.05 "Gamma" gamma /\
    derivable_pt_lim D 100 gamma.
Proof.
  apply (gamma_is_delta_slope "Put" 100 90 1 0.2 0.05); try lra.
  right. reflexivity.
Defined.

Lemma norm_cdf_increasing x y : x < y -> norm_cdf x < norm_cdf y.
Proof.
  intros Hxy.
  destruct (MVT_cor2 norm_cdf norm_pdf x y Hxy) as [c [Hc _]].
  - intros c _. apply norm_cdf_derivable_pt_lim.
  - pose proof (norm_pdf_pos c). nra.
Qed.

Lemma d1_of_increasing S1 S2 K T sigma r :
  0 < S1 -> S1 < S2 -> 0 < K -> 0 < T -> 0 < sigma ->
  d1_of S1 K T sigma r < d1_of S2 K T sigma r.
Proof.
  intros H1 H12 HK HT Hs.
  assert (HsT : 0 < sqrt T) by now apply sqrt_lt_R0.
  assert (Hden : 0 < / (sigma * sqrt T))
    by (apply Rinv_0_lt_compat; now apply Rmult_lt_0_compat).
  assert (Hln : ln (S1 / K) < ln (S2 / K)).
  { apply ln_increasing; [now apply Rdiv_lt_0_compat |].
    unfold Rdiv. apply Rmult_lt_compat_r; [now apply Rinv_0_lt_compat | lra]. }
  unfold d1_of, Rdiv at 1 3. apply Rmult_lt_compat_r; [exact Hden | lra].
Qed.

(** X7. Delta does not fall when the underlying price grows: for a recognized
    option type and fixed K, T, sigma, r, a larger S gives a Delta that is at
    least as large. *)
Theorem delta_monotone
  (option_type : string) (S1 S2 K T sigma r delta1 delta2 : R) :
  0 < S1 -> S1 <= S2 -> 0 < K -> 0 < T -> 0 < sigma -> 0 <= r ->
  returns option_type S1 K T sigma r "Delta" delta1 ->
  returns option_type S2 K T sigma r "Delta" delta2 ->
  delta1 <= delta2.
Proof.
  intros H1 H12 HK HT Hs Hr R1 R2.
  assert (Hv1 : valid S1 K T sigma r) by (unfold valid; auto).
  assert (Hv2 : valid S2 K T sigma r) by (unfold valid; repeat split; lra).
  assert (Hd : d1_of S1 K T sigma r <= d1_of S2 K T sigma r).
  { destruct H12 as [Hlt | ->]; [| lra].
    left. now apply d1_of_increasing. }
  assert (Hcdf : forall x y, x <= y -> norm_cdf x <= norm_cdf y).
  { intros x y [Hlt | ->]; [left; now apply norm_cdf_increasing | lra]. }
  pose proof (exp_pos (- r * T)) as He.
  assert (Hrec : recognized option_type).
  { destruct R1 as [g [Hg _]].
    exact (proj2 (success_only_if _ _ _ _ _ _ _ Hg)). }
  destruct Hrec as [Hot | Hot].
  - apply (returns_call_inv _ _ _ _ _ _ _ _ Hv1 Hot) in R1.
    apply (returns_call_inv _ _ _ _ _ _ _ _ Hv2 Hot) in R2.
    simpl in R1, R2. inversion R1. inversion R2.
    apply Rmult_le_compat_l; [lra | now apply Hcdf].
  - apply (returns_put_inv _ _ _ _ _ _ _ _ Hv1 Hot) in R1.
    apply (returns_put_inv _ _ _ _ _ _ _ _ Hv2 Hot) in R2.
    simpl in R1, R2. inversion R1. inversion R2.
    assert (Hc : norm_cdf (- d1_of S2 K T sigma r)
                 <= norm_cdf (- d1_of S1 K T sigma r))
      by (apply Hcdf; lra).
    nra.
Qed.

Lemma delta_monotone_100_110 :
  exp (- (0.05) * 1) * norm_cdf (d1_of 100 90 1 0.2 0.05)
  <= exp (- (0.05) * 1) * norm_cdf (d1_of 110 90 1 0.2 0.05).
Proof.
  apply (delta_monotone "Call" 100 110 90 1 0.2 0.05); try lra;
    (apply returns_call; [unfold valid; lra | reflexivity | reflexivity]).
Defined.

Lemma d1_of_decreasing_strike S K1 K2 T sigma r :
  0 < S -> 0 < K1 -> K1 < K2 -> 0 < T -> 0 < sigma ->
  d1_of S K2 T sigma r < d1_of S K1 T sigma r.
Proof.
  intros HS H1 H12 HT Hs.
  assert (HsT : 0 < sqrt T) by now apply sqrt_lt_R0.
  assert (Hden : 0 < / (sigma * sqrt T))
    by (apply Rinv_0_lt_compat; now apply Rmult_lt_0_compat).
  assert (Hln : ln (S / K2) < ln (S / K1)).
  { apply ln_increasing; [apply Rdiv_lt_0_compat; lra |].
    unfold Rdiv. apply Rmult_lt_compat_l; [exact HS |].
    apply Rinv_lt_contravar; [apply Rmult_lt_0_compat; lra | exact H12]. }
  unfold d1_of, Rdiv at 1 3. apply Rmult_lt_compat_r; [exact Hden | lra].
Qed.

(** X8. Delta does not grow when the strike rises: for a recognized option
    type and fixed S, T, sigma, r, a larger K gives a Delta that is at most
    as large. *)
Theorem delta_antitone_in_strike
  (option_type : string) (S K1 K2 T sigma r delta1 delta2 : R) :
  0 < S -> 0 < K1 -> K1 <= K2 -> 0 < T -> 0 < sigma -> 0 <= r ->
  returns option_type S K1 T sigma r "Delta" delta1 ->
  returns option_type S K2 T sigma r "Delta" delta2 ->
  delta2 <= delta1.
Proof.
  intros HS H1 H12 HT Hs Hr R1 R2.
  assert (Hv1 : valid S K1 T sigma r) by (unfold valid; auto).
  assert (Hv2 : valid S K2 T sigma r) by (unfold valid; repeat split; lra).
  assert (Hd : d1_of S K2 T sigma r <= d1_of S K1 T sigma r).
  { destruct H12 as [Hlt | ->]; [| lra].
    left. now apply d1_of_decreasing_strike. }
  assert (Hcdf : forall x y, x <= y -> norm_cdf x <= norm_cdf y).
  { intros x y [Hlt | ->]; [left; now apply norm_cdf_increasing | lra]. }
  pose proof (exp_pos (- r * T)) as He.
  assert (Hrec : recognized option_type).
  { destruct R1 as [g [Hg _]].
    exact (proj2 (success_only_if _ _ _ _ _ _ _ Hg)). }
  destruct Hrec as [Hot | Hot].
  - apply (returns_call_inv _ _ _ _ _ _ _ _ Hv1 Hot) in R1.
    apply (returns_call_inv _ _ _ _ _ _ _ _ Hv2 Hot) in R2.
    simpl in R1, R2. inversion R1. inversion R2.
    apply Rmult_le_compat_l; [lra | now apply Hcdf].
  - apply (returns_put_inv _ _ _ _ _ _ _ _ Hv1 Hot) in R1.
    apply (returns_put_inv _ _ _ _ _ _ _ _ Hv2 Hot) in R2.
    simpl in R1, R2. inversion R1. inversion R2.
    assert (Hc : norm_cdf (- d1_of S K1 T sigma r)
                 <= norm_cdf (- d1_of S K2 T sigma r))
      by (apply Hcdf; lra).
    nra.
Qed.

Lemma delta_antitone_90_100 :
  exp (- (0.05) * 1) * norm_cdf (d1_of 100 100 1 0.2 0.05)
  <= exp (- (0.05) * 1) * norm_cdf (d1_of 100 90 1 0.2 0.05).
Proof.
  apply (delta_antitone_in_strike "Call" 100 90 100 1 0.2 0.05); try lra;
    (apply returns_call; [unfold valid; lra | reflexivity | reflexivity]).
Defined.

(** X9. Theta of the call minus Theta of the put on the same valid numbers
    is r*S*(2*cdf(d1) - 1). *)
Theorem theta_parity (call_type put_type : string) (S K T sigma r : R) :
  0 < S -> 0 < K -> 0 < T -> 0 < sigma -> 0 <= r ->
  lower call_type = "call"%string ->
  lower put_type = "put"%string ->
  let d1 := (ln (S / K) + (r + 0.5 * sigma ^ 2) * T) / (sigma * sqrt T) in
  exists tc tp,
    returns call_type S K T sigma r "Theta" tc /\
    returns put_type S K T sigma r "Theta" tp /\
    tc - tp = r * S * (2 * norm_cdf d1 - 1).
Proof.
  intros HS HK HT Hs Hr Hc Hp d1.
  assert (Hv : valid S K T sigma r) by (unfold valid; auto).
  do 2 eexists. split; [| split].
  - apply returns_call; auto. reflexivity.
  - apply returns_put; auto. reflexivity.
  - pose proof (norm_cdf_reflect (d1_of S K T sigma r)) as Hsym.
    fold (d1_of S K T sigma r) in d1. subst d1. nra.
Qed.

Lemma theta_parity_100 :
  exists tc tp,
    returns "Call" 100 90 1 0.2 0.05 "Theta" tc /\
    returns "Put" 100 90 1 0.2 0.05 "Theta" tp /\
    tc - tp
    = 0.05 * 100
      * (2 * norm_cdf ((ln (100 / 90) + (0.05 + 0.5 * 0.2 ^ 2) * 1)
                       / (0.2 * sqrt 1)) - 1).
Proof.
  apply (theta_parity "Call" "Put" 100 90 1 0.2 0.05); try lra; reflexivity.
Defined.

(** X10. With a zero rate the call and the put have the same Theta, and it is
    not positive. *)
Theorem theta_zero_rate (call_type put_type : string) (S K T sigma : R) :
  0 < S -> 0 < K -> 0 < T -> 0 < sigma ->
  lower call_type = "call"%string ->
  lower put_type = "put"%string ->
  exists theta,
    returns call_type S K T sigma 0 "Theta" theta /\
    returns put_type S K T sigma 0 "Theta" theta /\
    theta <= 0.
Proof.
  intros HS HK HT Hs Hc Hp.
  assert (Hv : valid S K T sigma 0) by (unfold valid; repeat split; lra).
  assert (HsT : 0 < sqrt T) by now apply sqrt_lt_R0.
  exists (- (S * norm_pdf (d1_of S K T sigma 0) * sigma * exp (- 0 * T))
          / (2 * sqrt T)).
  split; [| split].
  - apply returns_call; auto. simpl. f_equal. unfold T_common. lra.
  - apply returns_put; auto. simpl. f_equal. unfold T_common. lra.
  - pose proof (norm_pdf_pos (d1_of S K T sigma 0)) as Hp0.
    pose proof (exp_pos (- 0 * T)) as He.
    assert (Hnum : 0 < S * norm_pdf (d1_of S K T sigma 0) * sigma
                       * exp (- 0 * T))
      by (apply Rmult_lt_0_compat;
          [apply Rmult_lt_0_compat; [apply Rmult_lt_0_compat |] |];
          assumption).
    assert (Hinv : 0 < / (2 * sqrt T)) by (apply Rinv_0_lt_compat; lra).
    unfold Rdiv. nra.
Qed.

Lemma theta_zero_rate_100 :
  exists theta,
    returns "Call" 100 90 1 0.2 0 "Theta" theta /\
    returns "Put" 100 90 1 0.2 0 "Theta" theta /\
    theta <= 0.
Proof.
  apply (theta_zero_rate "Call" "Put" 100 90 1 0.2); try lra; reflexivity.
Defined.

(** X11. Vega and Gamma of one call are tied by
    Vega = Gamma * S^2 * sigma * T * exp(r*T). *)
Theorem vega_gamma_relation (option_type : string) (S K T sigma r : R) :
  0 < S -> 0 < K -> 0 < T -> 0 < sigma -> 0 <= r ->
  lower option_type = "call"%string \/ lower option_type = "put"%string ->
  exists gamma vega,
    returns option_type S K T sigma r "Gamma" gamma /\
    returns option_type S K T sigma r "Vega" vega /\
    vega = gamma * S ^ 2 * sigma * T * exp (r * T).
Proof.
  intros HS HK HT Hs Hr Hot.
  assert (Hv : valid S K T sigma r) by (unfold valid; auto).
  assert (HsT : 0 < sqrt T) by now apply sqrt_lt_R0.
  assert (Hsq : sqrt T * sqrt T = T) by (apply sqrt_sqrt; lra).
  assert (He : exp (- r * T) * exp (r * T) = 1).
  { rewrite <- exp_plus. replace (- r * T + r * T) with 0 by ring.
    apply exp_0. }
  do 2 eexists. split; [| split].
  - destruct Hot; [apply returns_call | apply returns_put]; auto; reflexivity.
  - destruct Hot; [apply returns_call | apply returns_put]; auto; reflexivity.
  - set (p := norm_pdf (d1_of S K T sigma r)).
    set (e := exp (- r * T)) in *. set (e' := exp (r * T)) in *.
    set (st := sqrt T) in *. rewrite <- Hsq.
    replace (e * p / (S * sigma * st) * S ^ 2 * sigma * (st * st) * e')
      with (S * st * p * (e * e')) by (field; lra).
    rewrite He. ring.
Qed.

Lemma vega_gamma_relation_100 :
  exists gamma vega,
    returns "Call" 100 90 1 0.2 0.05 "Gamma" gamma /\
    returns "Call" 100 90 1 0.2 0.05 "Vega" vega /\
    vega = gamma * 100 ^ 2 * 0.2 * 1 * exp (0.05 * 1).
Proof.
  apply (vega_gamma_relation "Call" 100 90 1 0.2 0.05); try lra.
  left. reflexivity.
Defined.

Lemma d1_of_scale c S K T sigma r :
  0 < c -> 0 < K -> d1_of (c * S) (c * K) T sigma r = d1_of S K T sigma r.
Proof.
  intros Hc HK. unfold d1_of.
  replace (c * S / (c * K)) with (S / K) by (field; lra). reflexivity.
Qed.

(** X12. Scaling the underlying price and the strike by the same positive
    factor c leaves Delta unchanged, divides Gamma by c and multiplies Theta
    and Vega by c. *)
Theorem scaling (option_type : string) (c S K T sigma r : R) :
  0 < c ->
  0 < S -> 0 < K -> 0 < T -> 0 < sigma -> 0 <= r ->
  lower option_type = "call"%string \/ lower option_type = "put"%string ->
  exists delta gamma theta vega,
    returns option_type S K T sigma r "Delta" delta /\
    returns option_type S K T sigma r "Gamma" gamma /\
    returns option_type S K T sigma r "Theta" theta /\
    returns option_type S K T sigma r "Vega" vega /\
    returns option_type (c * S) (c * K) T sigma r "Delta" delta /\
    returns option_type (c * S) (c * K) T sigma r "Gamma" (gamma / c) /\
    returns option_type (c * S) (c * K) T sigma r "Theta" (c * theta) /\
    returns option_type (c * S) (c * K) T sigma r "Vega" (c * vega).
Proof.
  intros Hc HS HK HT Hs Hr Hot.
  assert (Hv : valid S K T sigma r) by (unfold valid; auto).
  assert (Hvc : valid (c * S) (c * K) T sigma r).
  { unfold valid. repeat split; try assumption;
      now apply Rmult_lt_0_compat. }
  assert (HsT : 0 < sqrt T) by now apply sqrt_lt_R0.
  pose proof (d1_of_scale c S K T sigma r Hc HK) as Hd1.
  unfold returns. unfold outcome.
  destruct Hot as [Hot | Hot].
  - rewrite !run_call by assumption.
    unfold greeks_of, T_common, d2_of. rewrite Hd1.
    do 4 eexists.
    repeat split; eexists; (split; [reflexivity |]);
      cbn [dict_get String.eqb Ascii.eqb Bool.eqb]; try reflexivity;
      f_equal; field; lra.
  - rewrite !run_put by assumption.
    unfold greeks_of, T_common, d2_of. rewrite Hd1.
    do 4 eexists.
    repeat split; eexists; (split; [reflexivity |]);
      cbn [dict_get String.eqb Ascii.eqb Bool.eqb]; try reflexivity;
      f_equal; field; lra.
Qed.

Lemma scaling_by_ten :
  exists delta gamma theta vega,
    returns "Put" 10 9 1 0.2 0.05 "Delta" delta /\
    returns "Put" 10 9 1 0.2 0.05 "Gamma" gamma /\
    returns "Put" 10 9 1 0.2 0.05 "Theta" theta /\
    returns "Put" 10 9 1 0.2 0.05 "Vega" vega /\
    returns "Put" (10 * 10) (10 * 9) 1 0.2 0.05 "Delta" delta /\
    returns "Put" (10 * 10) (10 * 9) 1 0.2 0.05 "Gamma" (gamma / 10) /\
    returns "Put" (10 * 10) (10 * 9) 1 0.2 0.05 "Theta" (10 * theta) /\
    returns "Put" (10 * 10) (10 * 9) 1 0.2 0.05 "Vega" (10 * vega).
Proof.
  apply (scaling "Put" 10 10 9 1 0.2 0.05); try lra.
  right. reflexivity.
Defined.

Lemma d1_of_pos S K T sigma r :
  0 < K -> K <= S -> 0 < T -> 0 < sigma -> 0 <= r ->
  0 < d1_of S K T sigma r.
Proof.
  intros HK HS HT Hs Hr.
  assert (HsT : 0 < sqrt T) by now apply sqrt_lt_R0.
  assert (Hln : 0 <= ln (S / K)).
  { rewrite <- ln_1. destruct (Req_dec (S / K) 1) as [-> | Hne]; [lra |].
    left. apply ln_increasing; [lra |].
    assert (1 <= S / K); [| lra].
    apply Rmult_le_reg_r with K; [exact HK |].
    unfold Rdiv. rewrite Rmult_assoc, Rinv_l by lra. lra. }
  unfold d1_of. apply Rdiv_lt_0_compat; [| now apply Rmult_lt_0_compat].
  assert (0 < (r + 0.5 * sigma ^ 2) * T); [| lra].
  apply Rmult_lt_0_compat; [nra | exact HT].
Qed.

(** X13. When the underlying price is at or above the strike, the Delta of a
    call is at least half the discount factor exp(-r*T) and the Delta of a
    put is at least minus half of it. *)
Theorem delta_at_or_in_the_money
  (option_type : string) (S K T sigma r delta : R) :
  0 < K -> K <= S -> 0 < T -> 0 < sigma -> 0 <= r ->
  returns option_type S K T sigma r "Delta" delta ->
  (lower option_type = "call"%string -> exp (- r * T) / 2 <= delta) /\
  (lower option_type = "put"%string -> - exp (- r * T) / 2 <= delta).
Proof.
  intros HK HS HT Hs Hr Rd.
  assert (Hv : valid S K T sigma r) by (unfold valid; repeat split; lra).
  pose proof (d1_of_pos S K T sigma r HK HS HT Hs Hr) as Hd.
  pose proof (exp_pos (- r * T)) as He.
  split; intros Hot.
  - apply (returns_call_inv _ _ _ _ _ _ _ _ Hv Hot) in Rd.
    simpl in Rd. injection Rd as <-.
    pose proof (norm_cdf_increasing 0 _ Hd) as Hc.
    rewrite norm_cdf_zero in Hc. nra.
  - apply (returns_put_inv _ _ _ _ _ _ _ _ Hv Hot) in Rd.
    simpl in Rd. injection Rd as <-.
    assert (Hc : norm_cdf (- d1_of S K T sigma r) < norm_cdf 0)
      by (apply norm_cdf_increasing; lra).
    rewrite norm_cdf_zero in Hc. nra.
Qed.

Lemma delta_at_the_money_call :
  exp (- (0.05) * 1) / 2
  <= exp (- (0.05) * 1) * norm_cdf (d1_of 100 100 1 0.2 0.05).
Proof.
  refine (proj1 (delta_at_or_in_the_money "Call" 100 100 1 0.2 0.05 _
                   _ _ _ _ _ _) _); try lra; try reflexivity.
  apply returns_call; [unfold valid; lra | reflexivity | reflexivity].
Defined.

(** ** The script *)



(** X16. Run as it stands, the file prints four lines and no error message:
    Delta in [0.6057, 0.6058], Gamma in [0.0178, 0.0179], Theta in
    [-3.048, -3.046] and Vega in [37.523, 37.526]. *)
Theorem main_prints :
  exists delta gamma theta vega,
    main = ([PrintValue "Delta:" delta; PrintValue "Gamma:" gamma;
             PrintValue "Theta:" theta; PrintValue "Vega:" vega], None) /\
    0.6057 <= delta <= 0.6058 /\
    0.0178 <= gamma <= 0.0179 /\
    -3.048 <= theta <= -3.046 /\
    37.523 <= vega <= 37.526.
Proof.
  destruct atm_call_values
    as (delta & gamma & theta & vega & Hrun & Hb).
  exists delta, gamma, theta, vega. split; [| exact Hb].
  unfold main, script. rewrite Hrun. reflexivity.
Qed.
